(** * qutebrowser: the SQL-backed completion model

    A shallow embedding of [qutebrowser/completion/models/sqlmodel.py]
    ([_SqlCompletionCategory] and [SqlCompletionModel]) together with the
    properties of its tree addressing and of its pattern compilation.

    Conventions of the embedding:
    - a Python [str] is a [string]; the three characters the code looks
      for (['%'], ['_'] and [' ']) are ASCII, so working on the UTF-8
      bytes of a text gives the same result as working on its code points;
    - a Python [int] is a [Z];
    - an exception is a value of [exn], and a method that can raise returns
      a [res];
    - a category object is a record that carries its identity ([oid]): the
      model owns its categories, a [QModelIndex] only remembers which
      object it points to. *)

From Stdlib Require Import ZArith Ascii String List Lia.
From stdpp Require Import base tactics option list relations strings pretty.

Local Open Scope string_scope.
Local Open Scope list_scope.
Local Open Scope Z_scope.

(* let [simpl] compute the concatenation of strings, as it does for lists *)
#[local] Arguments String.append !_ _ / : simpl nomatch.

(** ** Python strings *)

Module PyStr.

(** [s.startswith(p)], returning what follows the prefix. *)
Fixpoint strip_prefix (p s : string) : option string :=
  match p with
  | EmptyString => Some s
  | String a p' =>
      match s with
      | EmptyString => None
      | String b s' => if Ascii.eqb a b then strip_prefix p' s' else None
      end
  end.

(** The scan of [str.replace] for a non-empty [old]: at each position,
    either [old] starts here and is replaced, or one character is copied.
    [fuel] bounds the number of positions visited. *)
Fixpoint replace_scan (fuel : nat) (old new s : string) : string :=
  match fuel with
  | O => s
  | S fuel' =>
      match s with
      | EmptyString => EmptyString
      | String c t =>
          match strip_prefix old s with
          | Some rest => new +:+ replace_scan fuel' old new rest
          | None => String c (replace_scan fuel' old new t)
          end
      end
  end.

(** [str.replace] with an empty [old] puts [new] before every character
    and at the end. *)
Fixpoint replace_empty (new s : string) : string :=
  match s with
  | EmptyString => new
  | String c t => new +:+ String c (replace_empty new t)
  end.

(** [s.replace(old, new)] *)
Definition replace (old new s : string) : string :=
  match old with
  | EmptyString => replace_empty new s
  | String _ _ => replace_scan (String.length s) old new s
  end.

(** How many times [c] starts [s]: the greedy match of the regular
    expression [c+] at the beginning of [s] (0 when it does not match). *)
Fixpoint match_plus (c : ascii) (s : string) : nat :=
  match s with
  | String b t => if Ascii.eqb b c then S (match_plus c t) else O
  | EmptyString => O
  end.

Fixpoint drop (n : nat) (s : string) : string :=
  match n, s with
  | O, _ => s
  | S n', String _ t => drop n' t
  | S _, EmptyString => EmptyString
  end.

(** The scan of [re.sub(c+, repl, s)]: leftmost matches, each as long as
    possible, none overlapping; characters outside a match are copied. *)
Fixpoint re_sub_plus_scan (fuel : nat) (c : ascii) (repl s : string) : string :=
  match fuel with
  | O => s
  | S fuel' =>
      match s with
      | EmptyString => EmptyString
      | String b t =>
          match match_plus c s with
          | O => String b (re_sub_plus_scan fuel' c repl t)
          | S k => repl +:+ re_sub_plus_scan fuel' c repl (drop (S k) s)
          end
      end
  end.

(** [re.sub(r'c+', repl, s)] for a literal character [c] and a replacement
    without backslashes or group references. *)
Definition re_sub_plus (c : ascii) (repl s : string) : string :=
  re_sub_plus_scan (String.length s) c repl s.

(** [sep.join(parts)] *)
Fixpoint join (sep : string) (parts : list string) : string :=
  match parts with
  | [] => EmptyString
  | [p] => p
  | p :: rest => p +:+ sep +:+ join sep rest
  end.

End PyStr.

(** ** Pattern compilation: the body of [SqlCompletionModel.set_pattern]
    between the assignment of [self.pattern] and the loop. *)

Definition backslash : ascii := "092"%char.

Definition compile_pattern (pattern : string) : string :=
  (* escape to treat a user input % or _ as a literal, not a wildcard *)
  let pattern := PyStr.replace "%" (String backslash "%") pattern in
  let pattern := PyStr.replace "_" (String backslash "_") pattern in
  (* treat spaces as wildcards to match any of the typed words *)
  let pattern := PyStr.re_sub_plus " "%char "%" pattern in
  "%" +:+ pattern +:+ "%".

(** ** Python values: exceptions, results, lists *)

Inductive exn : Type :=
  | IndexError        (* list index out of range *)
  | ValueError        (* list.index: value not in list *)
  | AssertionError
  | SqlException      (* "Raised on an error interacting with the SQL database." *)
  | QtValueError.     (* qtutils.ensure_valid on an invalid object *)

Inductive res (A : Type) : Type :=
  | Ok (a : A)
  | Raise (e : exn).
Arguments Ok {A} a.
Arguments Raise {A} e.

#[global] Instance res_ret : MRet res := fun _ a => Ok a.
#[global] Instance res_bind : MBind res := fun _ _ f r =>
  match r with
  | Ok a => f a
  | Raise e => Raise e
  end.

(** [l[i]] on a Python list: a negative index counts from the end, an index
    outside the list raises [IndexError]. *)
Definition py_getitem {A : Type} (l : list A) (i : Z) : res A :=
  let n := Z.of_nat (length l) in
  let j := if i <? 0 then i + n else i in
  if (j <? 0) || (n <=? j) then Raise IndexError
  else match l !! Z.to_nat j with
       | Some x => Ok x
       | None => Raise IndexError
       end.

(** [enumerate(l)], counting from [start]. *)
Fixpoint enumerate_from {A : Type} (start : Z) (l : list A) : list (Z * A) :=
  match l with
  | [] => []
  | x :: l' => (start, x) :: enumerate_from (start + 1) l'
  end.

Definition enumerate {A : Type} (l : list A) : list (Z * A) := enumerate_from 0 l.

(** Truth value of [None] or a string, of [None] or an int, of [None] or a
    list: [None], [''], [0] and [[]] are false. *)
Definition truthy_str (s : option string) : bool :=
  match s with
  | None | Some EmptyString => false
  | Some (String _ _) => true
  end.

Definition truthy_int (z : option Z) : bool :=
  match z with
  | None | Some 0 => false
  | Some _ => true
  end.

(** [x or default] on [None] or a list *)
Definition or_list {A : Type} (x : option (list A)) (default : list A) : list A :=
  match x with
  | None | Some [] => default
  | Some (a :: l) => a :: l
  end.

(** ** The Qt side: model indexes and SQL queries *)

(** The identity of a Python object. *)
Definition oid : Type := nat.

Module Qt.

Inductive SortOrder : Type := AscendingOrder | DescendingOrder.

(** A [QModelIndex]: row, column, the internal pointer (here: nothing, or
    the category object it was created with) and whether it belongs to a
    model. Two indexes are [==] when the four agree. *)
Record QModelIndex : Type := mkIndex {
  row : Z;
  column : Z;
  internalPointer : option oid;
  has_model : bool
}.

(** [QModelIndex()] *)
Definition invalid : QModelIndex :=
  {| row := -1; column := -1; internalPointer := None; has_model := false |}.

(** [QAbstractItemModel.createIndex(row, column, object)] *)
Definition createIndex (r c : Z) (ptr : option oid) : QModelIndex :=
  {| row := r; column := c; internalPointer := ptr; has_model := true |}.

Definition isValid (i : QModelIndex) : bool :=
  (0 <=? row i) && (0 <=? column i) && has_model i.

End Qt.

Module Sql.

(** What the model reads from an executed [QSqlQuery]: the names of the
    columns of [record()], and the number of rows a [QSqlQueryModel]
    shows once [setQuery] was given the query. *)
Record QSqlQuery : Type := mkQuery {
  fieldNames : list string;
  loaded : nat
}.

(** [query.record().fieldName(i)]: the empty string outside the record. *)
Definition fieldName (q : QSqlQuery) (i : Z) : string :=
  if i <? 0 then "" else nth (Z.to_nat i) (fieldNames q) "".

(** The database: what executing a statement with bound values gives,
    [None] when the execution fails. *)
Definition engine : Type := string -> list string -> option QSqlQuery.

(** One call of [run_query]: the statement and the values bound to its
    placeholders, in order. *)
Definition call : Type := (string * list string)%type.

(** Modelled from the spec: [qutebrowser.misc.sql.run_query], which is not
    in this file. "synchronous [run(statement, params) -> ResultSet |
    SqlError]": the statement is executed with the values bound to its
    placeholders; a failure raises [SqlException]. *)
Definition run_query (db : engine) (querystr : string) (values : list string)
  : res QSqlQuery :=
  match db querystr values with
  | Some q => Ok q
  | None => Raise SqlException
  end.

End Sql.

(** Modelled from the spec: [qutebrowser.utils.qtutils.ensure_valid], which
    is not in this file. It checks a Qt object before it is used: it raises
    [QtValueError] when [obj.isValid()] is false and does nothing else. *)
Definition ensure_valid (i : Qt.QModelIndex) : res unit :=
  if Qt.isValid i then Ok tt else Raise QtValueError.

(** ** [_SqlCompletionCategory] *)

Module Category.

Record t : Type := mk {
  oid_of : oid;           (* which object this is *)
  tablename : string;
  _fields : list string;
  _querystr : string;
  rows : nat              (* QSqlQueryModel.rowCount(): rows of the query last set *)
}.

(** [QSqlQueryModel.rowCount()] *)
Definition rowCount (c : t) : Z := Z.of_nat (rows c).

(** [QSqlQueryModel.setQuery(query)] replaces the rows the object shows. *)
Definition setQuery (q : Sql.QSqlQuery) (c : t) : t :=
  {| oid_of := oid_of c; tablename := tablename c; _fields := _fields c;
     _querystr := _querystr c; rows := Sql.loaded q |}.

(** [QSqlQueryModel.fetchMore()], when the database hands over [n] more
    rows. *)
Definition fetchMore (n : nat) (c : t) : t :=
  {| oid_of := oid_of c; tablename := tablename c; _fields := _fields c;
     _querystr := _querystr c; rows := (rows c + n)%nat |}.

(** [set_pattern]: one query, the pattern bound once for each field. The
    result is what the call raised or returned, the object afterwards and
    the calls made to the database. *)
Definition set_pattern (db : Sql.engine) (pattern : string) (c : t)
  : res unit * t * list Sql.call :=
  let values := map (fun _ => pattern) (_fields c) in
  match Sql.run_query db (_querystr c) values with
  | Ok query => (Ok tt, setQuery query c, [(_querystr c, values)])
  | Raise e => (Raise e, c, [(_querystr c, values)])
  end.

(** The statement built by [__init__]. *)
Definition build_querystr (name select : string) (fields : list string)
    (where_ sort_by : option string) (sort_order : option Qt.SortOrder)
    (limit : option Z) : res string :=
  let querystr := "select " +:+ select +:+ " from " +:+ name +:+ " where (" in
  (* the incoming pattern will have literal % and _ escaped with '\'
     we need to tell sql to treat '\' as an escape character *)
  let querystr := querystr +:+
    PyStr.join " or "
      (map (fun f => f +:+ " like ? escape '" +:+ String backslash "'") fields) in
  let querystr := querystr +:+ ")" in
  let querystr :=
    if truthy_str where_ then querystr +:+ " and " +:+ default "" where_
    else querystr in
  querystr ←
    (if truthy_str sort_by then
       match sort_order with
       | None => Raise AssertionError
       | Some order =>
           let sortstr :=
             match order with
             | Qt.AscendingOrder => "asc"
             | Qt.DescendingOrder => "desc"
             end in
           Ok (querystr +:+ " order by " +:+ default "" sort_by +:+ " " +:+ sortstr)
       end
     else Ok querystr);
  Ok (if truthy_int limit then querystr +:+ " limit " +:+ pretty (default 0 limit)
      else querystr).

(** [__init__]; [o] is the identity of the object being created. *)
Definition __init__ (o : oid) (db : Sql.engine) (name : string)
    (sort_by : option string) (sort_order : option Qt.SortOrder)
    (limit : option Z) (select : string) (where_ : option string)
    (columns_to_filter : list Z) : res t * list Sql.call :=
  let probe := "select * from " +:+ name +:+ " limit 1" in
  match Sql.run_query db probe [] with
  | Raise e => (Raise e, [(probe, [])])
  | Ok query =>
      let fields := map (fun i => Sql.fieldName query i) columns_to_filter in
      match build_querystr name select fields where_ sort_by sort_order limit with
      | Raise e => (Raise e, [(probe, [])])
      | Ok querystr =>
          let self := {| oid_of := o; tablename := name; _fields := fields;
                         _querystr := querystr; rows := 0 |} in
          match set_pattern db "%" self with
          | (Ok _, self', calls) => (Ok self', (probe, []) :: calls)
          | (Raise e, _, calls) => (Raise e, (probe, []) :: calls)
          end
      end
  end.

End Category.

(** ** [SqlCompletionModel] *)

(** The attributes of the model. [srcmodel] (the model itself) and
    [delete_cur_item] (a callback kept for the view) play no part in what
    follows and are left out. *)
Record SqlCompletionModel : Type := mkModel {
  columns_to_filter : list Z;
  column_widths : list Z;
  _categories : list Category.t;
  pattern : string
}.

Definition __init__ (column_widths : list Z) (columns_to_filter : option (list Z))
  : SqlCompletionModel :=
  {| columns_to_filter := or_list columns_to_filter [0];
     column_widths := column_widths;
     _categories := [];
     pattern := "" |}.

(** The default of [column_widths]. *)
Definition default_column_widths : list Z := [30; 70; 0].

(** Truth value of an internal pointer: [None] is false, a category object
    is true (a [QSqlQueryModel] defines neither [__bool__] nor [__len__]). *)
Definition truthy_ptr (p : option oid) : bool :=
  match p with
  | None => false
  | Some _ => true
  end.

(** [self._categories.index(parent_table)]: the first position holding that
    object, [ValueError] when there is none. *)
Definition categories_index (o : oid) (cats : list Category.t) : res Z :=
  match list_find (fun c => Category.oid_of c = o) cats with
  | Some (i, _) => Ok (Z.of_nat i)
  | None => Raise ValueError
  end.

Section Methods.

Variable self : SqlCompletionModel.

(** Return the category pointed to by the given index, else None. *)
Definition _cat_from_idx (index : Qt.QModelIndex) : res (option Category.t) :=
  (* items hold an index to the parent category in their internalPointer
     categories have an empty internalPointer *)
  if Qt.isValid index && negb (truthy_ptr (Qt.internalPointer index)) then
    cat ← py_getitem (_categories self) (Qt.row index);
    Ok (Some cat)
  else Ok None.

Definition rowCount (parent : Qt.QModelIndex) : res Z :=
  if negb (Qt.isValid parent) then
    (* top-level *)
    Ok (Z.of_nat (length (_categories self)))
  else
    cat ← _cat_from_idx parent;
    match cat with
    | None => Ok 0          (* item *)
    | Some cat =>
        if negb (Qt.column parent =? 0) then Ok 0
                            (* nonzero category column (only first col has children) *)
        else Ok (Category.rowCount cat)
    end.

Definition columnCount (parent : Qt.QModelIndex) : Z := 3.

(** [index(row, col, parent)]; the four tests of the first [if] are made
    from left to right and stop at the first that holds. *)
Definition index (row col : Z) (parent : Qt.QModelIndex) : res Qt.QModelIndex :=
  if row <? 0 then Ok Qt.invalid
  else
    n ← rowCount parent;
    if n <=? row then Ok Qt.invalid
    else if col <? 0 then Ok Qt.invalid
    else if columnCount parent <=? col then Ok Qt.invalid
    else if Qt.isValid parent then
      if negb (Qt.column parent =? 0) then Ok Qt.invalid
      else
        (* store a pointer to the parent table in internalPointer *)
        cat ← py_getitem (_categories self) (Qt.row parent);
        Ok (Qt.createIndex row col (Some (Category.oid_of cat)))
    else Ok (Qt.createIndex row col None).

Definition parent (index : Qt.QModelIndex) : res Qt.QModelIndex :=
  let parent_table := Qt.internalPointer index in
  match parent_table with
  | None =>
      (* categories have no parent *)
      Ok Qt.invalid
  | Some o =>
      row ← categories_index o (_categories self);
      Ok (Qt.createIndex row 0 None)
  end.

(** Return the count of non-category items. *)
Definition count : Z :=
  fold_left Z.add (map Category.rowCount (_categories self)) 0.

(** The loop of [first_item] over [enumerate(self._categories)]. *)
Fixpoint first_item_loop (items : list (Z * Category.t)) : res Qt.QModelIndex :=
  match items with
  | [] => Ok Qt.invalid
  | (row, table) :: rest =>
      if 0 <? Category.rowCount table then
        parent ← index row 0 Qt.invalid;
        index ← index 0 0 parent;
        _ ← ensure_valid index;
        Ok index
      else first_item_loop rest
  end.

(** Return the index of the first child (non-category) in the model. *)
Definition first_item : res Qt.QModelIndex :=
  first_item_loop (enumerate (_categories self)).

(** The loop of [last_item] over [reversed(list(enumerate(...)))]. *)
Fixpoint last_item_loop (items : list (Z * Category.t)) : res Qt.QModelIndex :=
  match items with
  | [] => Ok Qt.invalid
  | (row, table) :: rest =>
      let childcount := Category.rowCount table in
      if 0 <? childcount then
        parent ← index row 0 Qt.invalid;
        index ← index (childcount - 1) 0 parent;
        _ ← ensure_valid index;
        Ok index
      else last_item_loop rest
  end.

(** Return the index of the last child (non-category) in the model. *)
Definition last_item : res Qt.QModelIndex :=
  last_item_loop (rev (enumerate (_categories self))).

End Methods.

(** *** Methods that change the model *)

Definition with_categories (cats : list Category.t) (self : SqlCompletionModel)
  : SqlCompletionModel :=
  {| columns_to_filter := columns_to_filter self;
     column_widths := column_widths self;
     _categories := cats;
     pattern := pattern self |}.

Definition with_pattern (p : string) (self : SqlCompletionModel)
  : SqlCompletionModel :=
  {| columns_to_filter := columns_to_filter self;
     column_widths := column_widths self;
     _categories := _categories self;
     pattern := p |}.

(** [new_category]: the object is appended only when its constructor
    returns. [o] is the identity of the new object. *)
Definition new_category (o : oid) (db : Sql.engine) (name select : string)
    (where_ sort_by : option string) (sort_order : option Qt.SortOrder)
    (limit : option Z) (self : SqlCompletionModel)
  : res unit * SqlCompletionModel * list Sql.call :=
  match Category.__init__ o db name sort_by sort_order limit select where_
          (columns_to_filter self) with
  | (Ok cat, calls) =>
      (Ok tt, with_categories (_categories self ++ [cat]) self, calls)
  | (Raise e, calls) => (Raise e, self, calls)
  end.

(** The loop [for cat in self._categories: cat.set_pattern(pattern)]; it
    stops at the first category whose query raises, the categories before
    it keep their new rows and those after it their old ones. *)
Fixpoint set_pattern_loop (db : Sql.engine) (pattern : string)
    (cats : list Category.t) : res unit * list Category.t * list Sql.call :=
  match cats with
  | [] => (Ok tt, [], [])
  | cat :: rest =>
      match Category.set_pattern db pattern cat with
      | (Raise e, cat', calls) => (Raise e, cat' :: rest, calls)
      | (Ok _, cat', calls) =>
          let '(r, rest', calls') := set_pattern_loop db pattern rest in
          (r, cat' :: rest', calls ++ calls')
      end
  end.

(** Set the filter pattern for all category tables. *)
Definition set_pattern (db : Sql.engine) (pattern : string)
    (self : SqlCompletionModel)
  : res unit * SqlCompletionModel * list Sql.call :=
  let self := with_pattern pattern self in
  let pattern := compile_pattern pattern in
  let '(r, cats, calls) := set_pattern_loop db pattern (_categories self) in
  (r, with_categories cats self, calls).

(** Override to forward the call to the tables; [n] is the number of rows
    the database then hands over to that table. *)
Definition fetchMore (n : nat) (parent : Qt.QModelIndex)
    (self : SqlCompletionModel) : res SqlCompletionModel :=
  cat ← _cat_from_idx self parent;
  match cat with
  | Some _ =>
      Ok (with_categories
            (alter (Category.fetchMore n) (Z.to_nat (Qt.row parent)) (_categories self))
            self)
  | None => Ok self
  end.

(** *** The models a program can build *)

(** One call of a method that changes the model. A new category is a new
    object: it is none of the objects the model already holds. *)
Inductive step : SqlCompletionModel -> SqlCompletionModel -> Prop :=
  | step_new_category o db name select where_ sort_by sort_order limit self :
      o ∉ map Category.oid_of (_categories self) ->
      step self (new_category o db name select where_ sort_by sort_order limit self).1.2
  | step_set_pattern db raw self :
      step self (set_pattern db raw self).1.2
  | step_fetchMore n parent self self' :
      fetchMore n parent self = Ok self' ->
      step self self'.

Definition reachable (m : SqlCompletionModel) : Prop :=
  exists widths filter, rtc step (__init__ widths filter) m.

(** *** Methods for the view: [data], [flags], [canFetchMore] *)

(** [Qt.DisplayRole], and the values of [Qt.ItemFlag] the model uses; a set
    of flags is the bitwise or of its members. *)
Definition DisplayRole : Z := 0.

Module ItemFlag.
End ItemFlag.

(** [index.parent()]: an index asks the model it belongs to, an index
    without model has no parent. *)
Definition QModelIndex_parent (self : SqlCompletionModel) (index : Qt.QModelIndex)
  : res Qt.QModelIndex :=
  if Qt.has_model index then parent self index else Ok Qt.invalid.

Section View.

(** The Qt side of a category: [table.data(table.index(row, col))], the
    value of a cell of the rows it shows ([None] outside them), and
    [table.canFetchMore()]. *)
Variable V : Type.
Variable table_data : Category.t -> Z -> Z -> option V.
Variable table_canFetchMore : Category.t -> bool.

(** Return the item data for index: nothing, the name of a category, or
    the value of a cell. *)
Definition data (self : SqlCompletionModel) (index : Qt.QModelIndex) (role : Z)
  : res (option (string + V)) :=
  if negb (Qt.isValid index) || negb (role =? DisplayRole) then Ok None
  else
    p ← QModelIndex_parent self index;
    if negb (Qt.isValid p) then
      if Qt.column index =? 0 then
        cat ← py_getitem (_categories self) (Qt.row index);
        Ok (Some (inl (Category.tablename cat)))
      else Ok None
    else
      p ← QModelIndex_parent self index;
      table ← py_getitem (_categories self) (Qt.row p);
      Ok (inr <$> table_data table (Qt.row index) (Qt.column index)).

(** Override to forward the call to the tables. *)
Definition canFetchMore (self : SqlCompletionModel) (parent : Qt.QModelIndex)
  : res bool :=
  cat ← _cat_from_idx self parent;
  match cat with
  | Some cat => Ok (table_canFetchMore cat)
  | None => Ok false
  end.

End View.


(** * The vocabulary of the statements *)

(** ** Escaping, words and runs *)

(** What replacing one character by a string amounts to, character by
    character. *)
Fixpoint subst_char (a : ascii) (new s : string) : string :=
  match s with
  | EmptyString => EmptyString
  | String c t =>
      (if Ascii.eqb a c then new else String c "") +:+ subst_char a new t
  end.

(** The escaping the comments of [set_pattern] describe: a backslash
    before each ['%'] and each ['_'], every other character as it is. *)
Definition escape_char (c : ascii) : string :=
  if Ascii.eqb c "%" || Ascii.eqb c "_" then String backslash (String c "")
  else String c "".

Fixpoint escape (s : string) : string :=
  match s with
  | EmptyString => EmptyString
  | String c t => escape_char c +:+ escape t
  end.

Fixpoint all_chars (P : ascii -> bool) (s : string) : bool :=
  match s with
  | EmptyString => true
  | String c t => P c && all_chars P t
  end.

Definition starts_with (P : ascii -> bool) (s : string) : bool :=
  match s with
  | EmptyString => false
  | String c _ => P c
  end.

Definition nonempty (s : string) : bool :=
  match s with
  | EmptyString => false
  | String _ _ => true
  end.

(** A text cut into words and runs of separators: each block is a word and
    the run that follows it; [last] is the word after the last run. *)
Definition is_word (sep : ascii -> bool) (w : string) : bool :=
  all_chars (fun c => negb (sep c)) w.

Definition is_run (sep : ascii -> bool) (r : string) : bool :=
  nonempty r && all_chars sep r.

(** The runs are maximal: between two runs there is a word with at least
    one character. Only the first word and the last may be empty. *)
Fixpoint segmented (sep : ascii -> bool) (first : bool)
    (blocks : list (string * string)) : bool :=
  match blocks with
  | [] => true
  | (w, r) :: bs =>
      (first || nonempty w) && is_word sep w && is_run sep r
      && segmented sep false bs
  end.

Definition segmentation (sep : ascii -> bool)
    (blocks : list (string * string)) (last : string) : bool :=
  segmented sep true blocks && is_word sep last.

(** The text the blocks stand for. *)
Fixpoint joined (blocks : list (string * string)) (last : string) : string :=
  match blocks with
  | [] => last
  | (w, r) :: bs => w +:+ r +:+ joined bs last
  end.

(** The same text with its words escaped and one ['%'] for each run. *)
Fixpoint joined_wild (blocks : list (string * string)) (last : string) : string :=
  match blocks with
  | [] => escape last
  | (w, _) :: bs => escape w +:+ "%" +:+ joined_wild bs last
  end.

(** Cutting a text at the runs of separators. *)
Fixpoint split_runs (sep : ascii -> bool) (s : string)
  : list (string * string) * string :=
  match s with
  | EmptyString => ([], EmptyString)
  | String c t =>
      let '(bs, last) := split_runs sep t in
      if sep c then
        match bs with
        | (EmptyString, r) :: bs' => ((EmptyString, String c r) :: bs', last)
        | _ => ((EmptyString, String c EmptyString) :: bs, last)
        end
      else
        match bs with
        | (w, r) :: bs' => ((String c w, r) :: bs', last)
        | [] => ([], String c last)
        end
  end.

(** The space character, the only one the regular expression [' +'] names. *)
Definition is_space (c : ascii) : bool := Ascii.eqb c " ".

(** White space in the usual sense: space, tab, newline, vertical tab, form
    feed, carriage return. *)
Definition is_whitespace (c : ascii) : bool :=
  let n := nat_of_ascii c in
  Nat.eqb n 32 || (Nat.leb 9 n && Nat.leb n 13).

(** What it means for the compilation to turn each maximal run of
    separators into one wildcard (and to escape the words, and to wrap the
    whole). *)
Definition collapses_runs (sep : ascii -> bool) : Prop :=
  forall blocks last,
    segmentation sep blocks last = true ->
    compile_pattern (joined blocks last) = "%" +:+ joined_wild blocks last +:+ "%".

(** Conjunctions of booleans, in the hypotheses and in the goal. *)
Ltac split_andb :=
  repeat match goal with
         | H : _ && _ = true |- _ => apply andb_prop in H as [? ?]
         end;
  rewrite ?andb_true_iff; repeat split.

(** [c], wherever it stands in the raw text, comes out as [out]; what is
    before it and what is after it are compiled as they would be alone. *)
Definition compiles_char_to (c : ascii) (out : string) : Prop :=
  forall a b : string, exists a' b' : string,
    compile_pattern a = "%" +:+ a' +:+ "%"
    /\ compile_pattern b = "%" +:+ b' +:+ "%"
    /\ compile_pattern (a +:+ String c b) = "%" +:+ a' +:+ out +:+ b' +:+ "%".

(** ** Addresses and objects *)

(** The addresses a model hands out: the root (any invalid index), a
    category (a valid index without internal pointer whose row is one of
    the categories), an item (a valid index with an internal pointer). *)
Definition is_root (p : Qt.QModelIndex) : bool := negb (Qt.isValid p).

Definition is_category (m : SqlCompletionModel) (p : Qt.QModelIndex) : bool :=
  Qt.isValid p && negb (truthy_ptr (Qt.internalPointer p))
  && (Qt.row p <? Z.of_nat (length (_categories m))).

Definition is_item (p : Qt.QModelIndex) : bool :=
  Qt.isValid p && truthy_ptr (Qt.internalPointer p).

Definition is_address (m : SqlCompletionModel) (p : Qt.QModelIndex) : bool :=
  is_root p || is_category m p || is_item p.

(** The category a category address stands for. *)
Definition category_of (m : SqlCompletionModel) (p : Qt.QModelIndex)
  : option Category.t :=
  _categories m !! Z.to_nat (Qt.row p).

(** The same object, possibly showing other rows. *)
Definition same_object (c c' : Category.t) : Prop :=
  Category.oid_of c' = Category.oid_of c
  /\ Category.tablename c' = Category.tablename c
  /\ Category._fields c' = Category._fields c
  /\ Category._querystr c' = Category._querystr c.

(** The categories of a model are distinct objects. *)
Definition distinct_categories (m : SqlCompletionModel) : Prop :=
  NoDup (map Category.oid_of (_categories m)).

(** A category that shows no row. *)
Definition no_rows (c : Category.t) : Prop := Category.rows c = 0%nat.

(** ** The queries of [set_pattern] *)

(** The values a category binds: the pattern, once for each of its
    fields. *)
Definition bound_values (pattern : string) (c : Category.t) : list string :=
  replicate (length (Category._fields c)) pattern.

(** One query for each category, in the order of the list. *)
Definition broadcast (pattern : string) (cats : list Category.t) : list Sql.call :=
  map (fun c => (Category._querystr c, bound_values pattern c)) cats.

(** The category after its query was run with the pattern. *)
Definition applied (db : Sql.engine) (pattern : string) (c c' : Category.t) : Prop :=
  exists query,
    db (Category._querystr c) (bound_values pattern c) = Some query
    /\ c' = Category.setQuery query c.

(** A category that filters on one field. *)
Definition one_field (c : Category.t) : Prop := length (Category._fields c) = 1%nat.

(** ** A model with two tables *)

(** A database where the table [Empty] has no rows and every other query
    gives three rows; each table has the columns [url], [title] and
    [last_atime]. *)
Definition demo_db : Sql.engine := fun querystr _ =>
  Some {| Sql.fieldNames := ["url"; "title"; "last_atime"];
          Sql.loaded := if String.prefix "select * from Empty" querystr
                        then 0%nat else 3%nat |}.

Definition demo_empty : Category.t :=
  {| Category.oid_of := 1%nat;
     Category.tablename := "Empty";
     Category._fields := ["url"];
     Category._querystr :=
       "select * from Empty where (url like ? escape '" +:+ String backslash "')";
     Category.rows := 0 |}.

Definition demo_history : Category.t :=
  {| Category.oid_of := 2%nat;
     Category.tablename := "History";
     Category._fields := ["url"];
     Category._querystr :=
       "select url, title from History where (url like ? escape '"
       +:+ String backslash "') order by last_atime desc limit 100";
     Category.rows := 3 |}.

Definition demo_model : SqlCompletionModel :=
  {| columns_to_filter := [0];
     column_widths := [30; 70; 0];
     _categories := [demo_empty; demo_history];
     pattern := "" |}.

(** ** More vocabulary: compiled patterns *)

(** [re.sub] of the runs of [c], written as one pass that remembers
    whether the character before was a [c]. *)
Fixpoint collapse (c : ascii) (repl : string) (in_run : bool) (s : string) : string :=
  match s with
  | EmptyString => EmptyString
  | String b t =>
      if Ascii.eqb b c then
        if in_run then collapse c repl true t
        else repl +:+ collapse c repl true t
      else String b (collapse c repl false t)
  end.

(** [n] spaces. *)
Fixpoint spaces (n : nat) : string :=
  match n with
  | O => EmptyString
  | S n' => String " " (spaces n')
  end.


(** A character the compilation neither escapes nor takes for a
    separator. *)
Definition is_plain (c : ascii) : bool :=
  negb (Ascii.eqb c "%") && negb (Ascii.eqb c "_") && negb (Ascii.eqb c " ").

(** ** More vocabulary: the tree *)

(** The objects the model holds. *)
Definition oids (m : SqlCompletionModel) : list oid :=
  map Category.oid_of (_categories m).


(** A valid index without internal pointer whose row is past the last
    category: no method of the model returns one. *)
Definition past_categories (m : SqlCompletionModel) (p : Qt.QModelIndex) : bool :=
  Qt.isValid p && negb (truthy_ptr (Qt.internalPointer p))
  && (Z.of_nat (length (_categories m)) <=? Qt.row p).

(** The address of the category at position [k]. *)
Definition category_address (k : nat) : Qt.QModelIndex :=
  Qt.createIndex (Z.of_nat k) 0 None.

(** [rowCount] of each category address, in order. *)
Definition category_rowCounts (m : SqlCompletionModel) : list (res Z) :=
  map (fun k => rowCount m (category_address k)) (seq 0 (length (_categories m))).

(** Conjunctions of booleans in the hypotheses only. *)
Ltac destruct_andb :=
  repeat match goal with
         | H : _ && _ = true |- _ => apply andb_prop in H as [? ?]
         end.


(** The sum of a list of numbers. *)
Definition total (ns : list Z) : Z := fold_right Z.add 0 ns.


(** ** More vocabulary: the methods that change the model *)

(** The probe query of a new category. *)
Definition probe_call (name : string) : Sql.call :=
  ("select * from " +:+ name +:+ " limit 1", []).

(** The query a category makes for a pattern. *)
Definition pattern_call (pattern : string) (c : Category.t) : Sql.call :=
  (Category._querystr c, bound_values pattern c).

(** [m'] has the categories of [m], the same objects at the same
    positions, and maybe more after them. *)
Definition extends (m m' : SqlCompletionModel) : Prop :=
  exists cats' more,
    _categories m' = cats' ++ more
    /\ Forall2 same_object (_categories m) cats'.


(** How many times [c] occurs in [s]. *)
Fixpoint count_char (c : ascii) (s : string) : nat :=
  match s with
  | EmptyString => O
  | String b t => ((if Ascii.eqb b c then 1 else 0) + count_char c t)%nat
  end.

(** A text without ['?'], the placeholder of a bound value. *)
Definition no_placeholder (s : string) : Prop := count_char "?" s = 0%nat.

(** * Properties *)

Example compile_empty : compile_pattern "" = "%%".
Proof. reflexivity. Qed.

Example compile_foo_bar : compile_pattern "foo bar" = "%foo%bar%".
Proof. reflexivity. Qed.

Example compile_two_spaces : compile_pattern "a   b " = "%a%b%%".
Proof. reflexivity. Qed.

(** ** Strings *)

Lemma string_app_nil_r (s : string) : s +:+ "" = s.
Proof. induction s as [|c s IH]; simpl; [done | by rewrite IH]. Qed.

Lemma string_app_assoc (s1 s2 s3 : string) : (s1 +:+ s2) +:+ s3 = s1 +:+ s2 +:+ s3.
Proof. induction s1 as [|c s1 IH]; simpl; [done | by rewrite IH]. Qed.


Lemma strip_prefix_char (a : ascii) (c : ascii) (t : string) :
  PyStr.strip_prefix (String a "") (String c t)
  = if Ascii.eqb a c then Some t else None.
Proof. reflexivity. Qed.

Lemma replace_scan_char (a : ascii) (new : string) (fuel : nat) (s : string) :
  (String.length s <= fuel)%nat ->
  PyStr.replace_scan fuel (String a "") new s = subst_char a new s.
Proof.
  revert s. induction fuel as [|fuel IH]; intros [|c t] Hlen; simpl in *;
    try done; try lia.
  destruct (Ascii.eqb a c); simpl; rewrite IH; auto with lia.
Qed.

Lemma replace_char (a : ascii) (new s : string) :
  PyStr.replace (String a "") new s = subst_char a new s.
Proof. unfold PyStr.replace. by apply replace_scan_char. Qed.

Lemma subst_char_app (a : ascii) (new s1 s2 : string) :
  subst_char a new (s1 +:+ s2) = subst_char a new s1 +:+ subst_char a new s2.
Proof.
  induction s1 as [|c s1 IH]; simpl; [done|].
  by rewrite IH, string_app_assoc.
Qed.

Lemma escape_app (s1 s2 : string) : escape (s1 +:+ s2) = escape s1 +:+ escape s2.
Proof.
  induction s1 as [|c s1 IH]; simpl; [done|].
  by rewrite IH, string_app_assoc.
Qed.

Lemma subst_underscore_after_percent (c : ascii) :
  subst_char "_" (String backslash "_")
    (if Ascii.eqb "%" c then String backslash "%" else String c "")
  = escape_char c.
Proof.
  unfold escape_char.
  rewrite (Ascii.eqb_sym c "%"), (Ascii.eqb_sym c "_").
  destruct (Ascii.eqb_spec "%" c) as [<-|_]; [reflexivity|].
  cbn [subst_char orb].
  destruct (Ascii.eqb_spec "_" c) as [<-|_]; reflexivity.
Qed.

(** The two [replace] calls together escape character by character: the
    second does not touch what the first has inserted. *)
Lemma replace_twice_escape (raw : string) :
  PyStr.replace "_" (String backslash "_")
    (PyStr.replace "%" (String backslash "%") raw) = escape raw.
Proof.
  rewrite !replace_char.
  induction raw as [|c raw IH]; [done|].
  cbn [subst_char escape].
  by rewrite subst_char_app, IH, subst_underscore_after_percent.
Qed.

(** *** The scan of [re.sub] *)

Lemma length_drop (n : nat) (s : string) :
  (String.length (PyStr.drop n s) <= String.length s)%nat.
Proof.
  revert s. induction n as [|n IH]; intros [|c t]; simpl; auto.
Qed.

Lemma re_sub_plus_scan_fuel (c : ascii) (repl : string) (f1 f2 : nat) (s : string) :
  (String.length s <= f1)%nat -> (String.length s <= f2)%nat ->
  PyStr.re_sub_plus_scan f1 c repl s = PyStr.re_sub_plus_scan f2 c repl s.
Proof.
  revert f2 s. induction f1 as [|f1 IH]; intros f2 [|b t] H1 H2; simpl in *;
    try lia; destruct f2 as [|f2]; simpl; try done; try lia.
  destruct (Ascii.eqb b c).
  - f_equal. apply IH; pose proof (length_drop (PyStr.match_plus c t) t); lia.
  - f_equal. apply IH; lia.
Qed.

Lemma re_sub_plus_nil (c : ascii) (repl : string) :
  PyStr.re_sub_plus c repl "" = "".
Proof. reflexivity. Qed.

(** A character that is not [c] is copied. *)
Lemma re_sub_plus_other (c : ascii) (repl : string) (b : ascii) (t : string) :
  b <> c ->
  PyStr.re_sub_plus c repl (String b t) = String b (PyStr.re_sub_plus c repl t).
Proof.
  intros Hb. unfold PyStr.re_sub_plus. simpl.
  destruct (Ascii.eqb_spec b c); [done|]. done.
Qed.

(** A [c] starts a match, which takes every [c] that follows. *)
Lemma re_sub_plus_match (c : ascii) (repl : string) (t : string) :
  PyStr.re_sub_plus c repl (String c t)
  = repl +:+ PyStr.re_sub_plus c repl (PyStr.drop (PyStr.match_plus c t) t).
Proof.
  unfold PyStr.re_sub_plus. simpl. rewrite Ascii.eqb_refl. f_equal.
  apply re_sub_plus_scan_fuel; [apply length_drop | lia].
Qed.

(** Characters other than [c] before a position are copied, whatever
    follows. *)
Lemma re_sub_plus_word (c : ascii) (repl x y : string) :
  all_chars (fun b => negb (Ascii.eqb b c)) x = true ->
  PyStr.re_sub_plus c repl (x +:+ y) = x +:+ PyStr.re_sub_plus c repl y.
Proof.
  induction x as [|b x IH]; simpl; [done|].
  intros [Hb Hx]%andb_prop.
  rewrite re_sub_plus_other, IH; [done..|].
  intros ->. by rewrite Ascii.eqb_refl in Hb.
Qed.

Lemma match_plus_run (c : ascii) (r y : string) :
  all_chars (fun b => Ascii.eqb b c) r = true ->
  starts_with (fun b => Ascii.eqb b c) y = false ->
  PyStr.match_plus c (r +:+ y) = String.length r
  /\ PyStr.drop (String.length r) (r +:+ y) = y.
Proof.
  intros Hr Hy. induction r as [|b r IH]; simpl in *.
  - split; [|done]. destruct y as [|b y]; simpl in *; [done|]. by rewrite Hy.
  - apply andb_prop in Hr as [Hb Hr]. rewrite Hb.
    destruct (IH Hr) as [-> ->]. done.
Qed.

(** A whole run of [c] followed by something else becomes one [repl]. *)
Lemma re_sub_plus_run (c : ascii) (repl r y : string) :
  nonempty r = true ->
  all_chars (fun b => Ascii.eqb b c) r = true ->
  starts_with (fun b => Ascii.eqb b c) y = false ->
  PyStr.re_sub_plus c repl (r +:+ y) = repl +:+ PyStr.re_sub_plus c repl y.
Proof.
  destruct r as [|b r]; [done|]. intros _ Hr Hy. simpl in Hr.
  apply andb_prop in Hr as [Hb Hr].
  apply Ascii.eqb_eq in Hb as ->. simpl.
  rewrite re_sub_plus_match.
  by destruct (match_plus_run c r y Hr Hy) as [-> ->].
Qed.

Lemma match_plus_app_other (c b : ascii) (x y : string) :
  b <> c ->
  PyStr.match_plus c (x +:+ String b y) = PyStr.match_plus c x.
Proof.
  intros Hb. induction x as [|a x IH]; simpl.
  - by destruct (Ascii.eqb_spec b c).
  - destruct (Ascii.eqb a c); [by rewrite IH | done].
Qed.

Lemma match_plus_length (c : ascii) (x : string) :
  (PyStr.match_plus c x <= String.length x)%nat.
Proof.
  induction x as [|a x IH]; simpl; [done|].
  destruct (Ascii.eqb a c); lia.
Qed.

Lemma drop_app (n : nat) (x y : string) :
  (n <= String.length x)%nat ->
  PyStr.drop n (x +:+ y) = PyStr.drop n x +:+ y.
Proof.
  revert x. induction n as [|n IH]; intros [|a x] Hn; simpl in *; try done; try lia.
  apply IH. lia.
Qed.

(** A character other than [c] separates what [re.sub] does before it from
    what it does after it. *)
Lemma re_sub_plus_split (c : ascii) (repl : string) (b : ascii) (x y : string) :
  b <> c ->
  PyStr.re_sub_plus c repl (x +:+ String b y)
  = PyStr.re_sub_plus c repl x +:+ String b (PyStr.re_sub_plus c repl y).
Proof.
  intros Hb.
  remember (String.length x) as n eqn:Hn. revert x Hn.
  induction n as [n IH] using lt_wf_ind. intros [|a x] Hn.
  - simpl. by rewrite re_sub_plus_other.
  - destruct (Ascii.eqb_spec a c) as [->|Ha].
    + simpl. rewrite !re_sub_plus_match, match_plus_app_other by done.
      rewrite drop_app by apply match_plus_length.
      rewrite (IH (String.length (PyStr.drop (PyStr.match_plus c x) x))); [|..|done].
      * by rewrite string_app_assoc.
      * pose proof (length_drop (PyStr.match_plus c x) x). simpl in Hn. lia.
    + simpl. rewrite !re_sub_plus_other by done.
      rewrite (IH (String.length x)); [done|..|done]. simpl in Hn. lia.
Qed.

(** *** Words and runs of separators *)

Lemma split_runs_joined (sep : ascii -> bool) (s : string) :
  joined (split_runs sep s).1 (split_runs sep s).2 = s.
Proof.
  induction s as [|c t IH]; simpl; [done|].
  destruct (split_runs sep t) as [bs last]; simpl in *.
  destruct (sep c).
  - destruct bs as [|[[|a w] r] bs']; simpl in *; by rewrite <- IH.
  - destruct bs as [|[w r] bs']; simpl in *; by rewrite <- IH.
Qed.

Lemma split_runs_segmentation (sep : ascii -> bool) (s : string) :
  segmentation sep (split_runs sep s).1 (split_runs sep s).2 = true.
Proof.
  unfold segmentation.
  induction s as [|c t IH]; simpl; [done|].
  destruct (split_runs sep t) as [bs last]; simpl in *.
  destruct (sep c) eqn:Hc.
  - destruct bs as [|[[|a w] r] bs']; simpl in *; unfold is_run, is_word in *;
      simpl in *; rewrite ?Hc; split_andb; simpl; auto.
  - destruct bs as [|[w r] bs']; simpl in *; unfold is_run, is_word in *;
      simpl in *; rewrite ?Hc; split_andb; simpl; auto.
Qed.

(** *** The compiled pattern *)

Lemma compile_pattern_escape (raw : string) :
  compile_pattern raw
  = "%" +:+ PyStr.re_sub_plus " " "%" (escape raw) +:+ "%".
Proof. unfold compile_pattern. by rewrite replace_twice_escape. Qed.

Lemma escape_char_other (c : ascii) :
  c <> "%"%char -> c <> "_"%char -> escape_char c = String c "".
Proof.
  intros Hp Hu. unfold escape_char.
  destruct (Ascii.eqb_spec c "%"); [done|].
  by destruct (Ascii.eqb_spec c "_").
Qed.

Lemma escape_run (r : string) : all_chars is_space r = true -> escape r = r.
Proof.
  induction r as [|c r IH]; simpl; [done|].
  intros [Hc Hr]%andb_prop. apply Ascii.eqb_eq in Hc as ->.
  by rewrite IH.
Qed.

Lemma escape_char_no_space (c : ascii) :
  is_space c = false ->
  all_chars (fun b => negb (is_space b)) (escape_char c) = true.
Proof.
  intros Hc. unfold escape_char.
  destruct (Ascii.eqb c "%" || Ascii.eqb c "_"); simpl; by rewrite Hc.
Qed.

Lemma all_chars_app (P : ascii -> bool) (s1 s2 : string) :
  all_chars P (s1 +:+ s2) = all_chars P s1 && all_chars P s2.
Proof.
  induction s1 as [|c s1 IH]; simpl; [done|].
  by rewrite IH, andb_assoc.
Qed.

Lemma escape_word (w : string) :
  is_word is_space w = true ->
  all_chars (fun b => negb (is_space b)) (escape w) = true.
Proof.
  unfold is_word. induction w as [|c w IH]; simpl; [done|].
  intros [Hc Hw]%andb_prop. rewrite all_chars_app, IH by done.
  rewrite escape_char_no_space; [done|]. by destruct (is_space c).
Qed.

Lemma starts_with_escape (s : string) :
  starts_with is_space s = false -> starts_with is_space (escape s) = false.
Proof.
  destruct s as [|c s]; simpl; [done|]. intros Hc.
  unfold escape_char.
  destruct (Ascii.eqb c "%" || Ascii.eqb c "_"); simpl; done.
Qed.

Lemma starts_with_word (sep : ascii -> bool) (w : string) :
  is_word sep w = true -> starts_with sep w = false.
Proof.
  destruct w as [|c w]; [done|]. unfold is_word. simpl.
  intros [Hc _]%andb_prop. by destruct (sep c).
Qed.

Lemma starts_with_joined (sep : ascii -> bool)
    (bs : list (string * string)) (last : string) :
  segmented sep false bs = true -> is_word sep last = true ->
  starts_with sep (joined bs last) = false.
Proof.
  destruct bs as [|[w r] bs]; simpl.
  - intros _. apply starts_with_word.
  - intros H _. split_andb.
    destruct w as [|c w]; [done|].
    match goal with H : is_word _ _ = true |- _ =>
      apply starts_with_word in H end. done.
Qed.

Lemma re_sub_joined (first : bool) (blocks : list (string * string)) (last : string) :
  segmented is_space first blocks = true -> is_word is_space last = true ->
  PyStr.re_sub_plus " " "%" (escape (joined blocks last))
  = joined_wild blocks last.
Proof.
  revert first. induction blocks as [|[w r] bs IH]; intros first Hseg Hlast; simpl.
  - rewrite <- (string_app_nil_r (escape last)) at 1.
    rewrite re_sub_plus_word by by apply escape_word.
    by rewrite re_sub_plus_nil, string_app_nil_r.
  - simpl in Hseg. unfold is_run in Hseg. split_andb.
    rewrite !escape_app, (escape_run r) by done.
    rewrite re_sub_plus_word by by apply escape_word.
    rewrite re_sub_plus_run; [|done..|].
    + by rewrite (IH false).
    + apply starts_with_escape. by apply starts_with_joined.
Qed.

Lemma compiles_char_to_escape (c : ascii) :
  c <> " "%char -> compiles_char_to c (escape_char c).
Proof.
  intros Hc a b.
  exists (PyStr.re_sub_plus " " "%" (escape a)), (PyStr.re_sub_plus " " "%" (escape b)).
  rewrite !compile_pattern_escape. split; [done|]. split; [done|].
  f_equal. rewrite <- !string_app_assoc. f_equal. rewrite string_app_assoc.
  rewrite escape_app. cbn [escape]. unfold escape_char.
  destruct (Ascii.eqb c "%" || Ascii.eqb c "_"); simpl.
  - rewrite re_sub_plus_split by done. by rewrite re_sub_plus_other.
  - by rewrite re_sub_plus_split.
Qed.

(** C3. The compilation escapes each ['%'] and each ['_'] of the raw text
    with a backslash, wherever it stands, and wraps the result in
    ['%...%']: the compiled pattern is the raw text escaped character by
    character, then passed through the substitution of the runs of spaces,
    between two ['%']. The empty text gives ["%%"], ["foo bar"] gives
    ["%foo%bar%"] and ["50% off"] gives ["%50\%%off%"]. [compile_pattern]
    is a total function: no step of it can raise. *)
Theorem compile_pattern_escapes_and_wraps :
  compiles_char_to "%" (String backslash "%")
  /\ compiles_char_to "_" (String backslash "_")
  /\ (forall raw : string,
        compile_pattern raw
        = "%" +:+ PyStr.re_sub_plus " " "%" (escape raw) +:+ "%")
  /\ compile_pattern "" = "%%"
  /\ compile_pattern "foo bar" = "%foo%bar%"
  /\ compile_pattern "50% off"
     = "%50" +:+ String backslash "%%off%".
Proof.
  split; [|split; [|split]].
  - by apply (compiles_char_to_escape "%").
  - by apply (compiles_char_to_escape "_").
  - apply compile_pattern_escape.
  - by vm_compute.
Qed.

(** C4, as the code has it. Every raw text is a sequence of words without
    spaces and of runs of spaces, the runs being maximal; its compiled
    pattern has the escaped words in the same order and a single ['%']
    in place of each run. Only the space character counts: a tab or a
    newline belongs to a word and is copied. *)
Theorem compile_pattern_collapses_spaces :
  (forall raw : string, exists blocks last,
      segmentation is_space blocks last = true /\ joined blocks last = raw)
  /\ (forall blocks last,
        segmentation is_space blocks last = true ->
        compile_pattern (joined blocks last)
        = "%" +:+ joined_wild blocks last +:+ "%").
Proof.
  split.
  - intros raw.
    exists (split_runs is_space raw).1, (split_runs is_space raw).2.
    split; [apply split_runs_segmentation | apply split_runs_joined].
  - intros blocks last [Hseg Hlast]%andb_prop.
    rewrite compile_pattern_escape. by rewrite (re_sub_joined true).
Qed.

Lemma compile_pattern_collapses_spaces_witness :
  segmentation is_space [("foo", "   "); ("bar", " ")] "" = true
  /\ compile_pattern "foo   bar " = "%foo%bar%%".
Proof.
  split; [reflexivity|].
  exact (proj2 compile_pattern_collapses_spaces
           [("foo", "   "); ("bar", " ")] "" eq_refl).
Defined.

(** C4, as it is written, fails on a tab: ["a<TAB>b"] is the word [a], a
    run of white space and the word [b], and its compiled pattern keeps
    the tab where the claim puts a ['%']. *)
Lemma compile_pattern_keeps_tab :
  let tab := String "009" "" in
  segmentation is_whitespace [("a", tab)] "b" = true
  /\ compile_pattern (joined [("a", tab)] "b") = "%a" +:+ tab +:+ "b%"
  /\ "%" +:+ joined_wild [("a", tab)] "b" +:+ "%" = "%a%b%"
  /\ ~ collapses_runs is_whitespace.
Proof.
  intros tab. split; [reflexivity|]. split; [reflexivity|]. split; [reflexivity|].
  intros H. specialize (H [("a", tab)] "b" eq_refl). by vm_compute in H.
Qed.

(** C9. A backslash of the raw text is copied as it is, wherever it
    stands: the compilation never puts a second backslash before it. So
    the text made of one backslash compiles to ['%\%'], where the
    backslash stands just before the closing ['%']. *)
Theorem compile_pattern_copies_backslash :
  compiles_char_to backslash (String backslash "")
  /\ compile_pattern (String backslash "") = "%" +:+ String backslash "%".
Proof.
  split; [|reflexivity].
  by apply (compiles_char_to_escape backslash).
Qed.

(** ** Addresses *)

Lemma py_getitem_lookup {A : Type} (l : list A) (i : Z) (x : A) :
  0 <= i -> l !! Z.to_nat i = Some x -> py_getitem l i = Ok x.
Proof.
  intros Hi Hx. unfold py_getitem.
  pose proof (lookup_lt_Some _ _ _ Hx) as Hlt.
  destruct (Z.ltb_spec i 0); [lia|].
  destruct (Z.ltb_spec i 0); [lia|].
  destruct (Z.leb_spec (Z.of_nat (length l)) i); [lia|].
  simpl. by rewrite Hx.
Qed.

Lemma py_getitem_Ok {A : Type} (l : list A) (i : Z) (x : A) :
  0 <= i -> py_getitem l i = Ok x -> l !! Z.to_nat i = Some x.
Proof.
  intros Hi. unfold py_getitem.
  destruct (Z.ltb_spec i 0); [lia|].
  destruct (_ || _); [done|].
  destruct (l !! Z.to_nat i); [|done]. by intros [= ->].
Qed.

Lemma isValid_row (p : Qt.QModelIndex) : Qt.isValid p = true -> 0 <= Qt.row p.
Proof. unfold Qt.isValid. intros H. split_andb. lia. Qed.

Lemma is_category_lookup (m : SqlCompletionModel) (p : Qt.QModelIndex) :
  is_category m p = true ->
  exists c, category_of m p = Some c
            /\ py_getitem (_categories m) (Qt.row p) = Ok c.
Proof.
  unfold is_category, category_of. intros H. split_andb.
  pose proof (isValid_row p ltac:(done)).
  destruct (lookup_lt_is_Some_2 (_categories m) (Z.to_nat (Qt.row p))) as [c Hc];
    [lia|].
  exists c. split; [done|]. by apply py_getitem_lookup.
Qed.

Lemma rowCount_root (m : SqlCompletionModel) (p : Qt.QModelIndex) :
  is_root p = true -> rowCount m p = Ok (Z.of_nat (length (_categories m))).
Proof. unfold is_root, rowCount. by intros ->. Qed.

Lemma rowCount_item (m : SqlCompletionModel) (p : Qt.QModelIndex) :
  is_item p = true -> rowCount m p = Ok 0.
Proof.
  unfold is_item, rowCount, _cat_from_idx. intros H. split_andb.
  repeat match goal with H : _ = true |- _ => rewrite H end. done.
Qed.

Lemma rowCount_category (m : SqlCompletionModel) (p : Qt.QModelIndex) (c : Category.t) :
  is_category m p = true -> category_of m p = Some c ->
  rowCount m p = Ok (if Qt.column p =? 0 then Category.rowCount c else 0).
Proof.
  intros Hp Hc. destruct (is_category_lookup m p Hp) as (c' & Hc' & Hget).
  assert (c' = c) as -> by congruence.
  unfold is_category in Hp. split_andb.
  unfold rowCount, _cat_from_idx.
  repeat match goal with H : _ = true |- _ => rewrite H end.
  simpl. rewrite Hget. simpl. by destruct (Qt.column p =? 0).
Qed.

Lemma rowCount_address (m : SqlCompletionModel) (p : Qt.QModelIndex) :
  is_address m p = true -> exists n, rowCount m p = Ok n /\ 0 <= n.
Proof.
  unfold is_address. intros [[H|H]%orb_prop|H]%orb_prop.
  - rewrite rowCount_root by done. eexists. split; [done|lia].
  - destruct (is_category_lookup m p H) as (c & Hc & _).
    rewrite (rowCount_category m p c) by done. eexists. split; [done|].
    unfold Category.rowCount. destruct (_ =? _); lia.
  - rewrite rowCount_item by done. by exists 0.
Qed.

Lemma rowCount_other_column (m : SqlCompletionModel) (p : Qt.QModelIndex) :
  is_category m p = true -> Qt.column p <> 0 -> rowCount m p = Ok 0.
Proof.
  intros Hp Hcol. destruct (is_category_lookup m p Hp) as (c & Hc & _).
  rewrite (rowCount_category m p c) by done.
  by destruct (Z.eqb_spec (Qt.column p) 0).
Qed.

(** C2. [rowCount] gives the number of categories for the root, the rows
    its category now has for a category address at column 0, and 0 for
    an item address and for a category address at another column. *)
Theorem rowCount_cases (m : SqlCompletionModel) (parent : Qt.QModelIndex) :
  (is_root parent = true ->
     rowCount m parent = Ok (Z.of_nat (length (_categories m))))
  /\ (forall c, is_category m parent = true -> category_of m parent = Some c ->
        Qt.column parent = 0 ->
        rowCount m parent = Ok (Z.of_nat (Category.rows c)))
  /\ (is_item parent = true -> rowCount m parent = Ok 0)
  /\ (is_category m parent = true -> Qt.column parent <> 0 ->
        rowCount m parent = Ok 0).
Proof.
  split; [apply rowCount_root|]. split; [|split; [apply rowCount_item|]].
  - intros c Hp Hc Hcol. rewrite (rowCount_category m parent c) by done.
    by rewrite Hcol.
  - apply rowCount_other_column.
Qed.

(** *** [index] *)

Lemma index_negative_row (m : SqlCompletionModel) (row col : Z) (p : Qt.QModelIndex) :
  row < 0 -> index m row col p = Ok Qt.invalid.
Proof. intros H. unfold index. by destruct (Z.ltb_spec row 0); [|lia]. Qed.

Lemma index_outside (m : SqlCompletionModel) (row col n : Z) (p : Qt.QModelIndex) :
  rowCount m p = Ok n ->
  row < 0 \/ n <= row \/ col < 0 \/ columnCount p <= col ->
  index m row col p = Ok Qt.invalid.
Proof.
  intros Hn H. unfold index. rewrite Hn. simpl.
  destruct (Z.ltb_spec row 0); [done|].
  destruct (Z.leb_spec n row); [done|].
  destruct (Z.ltb_spec col 0); [done|].
  destruct (Z.leb_spec (columnCount p) col); [done|]. lia.
Qed.

Lemma index_inside_root (m : SqlCompletionModel) (row col : Z) (p : Qt.QModelIndex) :
  is_root p = true ->
  0 <= row < Z.of_nat (length (_categories m)) -> 0 <= col < 3 ->
  index m row col p = Ok (Qt.createIndex row col None).
Proof.
  intros Hp Hrow Hcol. unfold index. rewrite rowCount_root by done. simpl.
  unfold is_root in Hp. apply negb_true_iff in Hp. rewrite Hp.
  unfold columnCount.
  destruct (Z.ltb_spec row 0); [lia|].
  destruct (Z.leb_spec (Z.of_nat (length (_categories m))) row); [lia|].
  destruct (Z.ltb_spec col 0); [lia|].
  by destruct (Z.leb_spec 3 col); [lia|].
Qed.

Lemma index_inside_category (m : SqlCompletionModel) (row col : Z)
    (p : Qt.QModelIndex) (c : Category.t) :
  is_category m p = true -> category_of m p = Some c -> Qt.column p = 0 ->
  0 <= row < Z.of_nat (Category.rows c) -> 0 <= col < 3 ->
  index m row col p = Ok (Qt.createIndex row col (Some (Category.oid_of c))).
Proof.
  intros Hp Hc Hp0 Hrow Hcol. unfold index.
  rewrite (rowCount_category m p c), Hp0 by done. simpl.
  destruct (is_category_lookup m p Hp) as (c' & Hc' & ->).
  assert (c' = c) as -> by congruence.
  unfold is_category in Hp. split_andb.
  repeat match goal with H : Qt.isValid _ = true |- _ => rewrite H end.
  unfold columnCount, Category.rowCount.
  destruct (Z.ltb_spec row 0); [lia|].
  destruct (Z.leb_spec (Z.of_nat (Category.rows c)) row); [lia|].
  destruct (Z.ltb_spec col 0); [lia|].
  by destruct (Z.leb_spec 3 col); [lia|].
Qed.

(** C7. Under any address of the model, a row or a column outside
    [0 <= row < rowCount(parent)], [0 <= col < columnCount(parent)] gives
    the invalid index, and [index] returns: it does not raise. This holds
    in particular for a row past the last category under the root. *)
Theorem index_out_of_range (m : SqlCompletionModel) (parent : Qt.QModelIndex)
    (row col : Z) :
  is_address m parent = true ->
  exists n,
    rowCount m parent = Ok n
    /\ (row < 0 \/ n <= row \/ col < 0 \/ columnCount parent <= col ->
        index m row col parent = Ok Qt.invalid).
Proof.
  intros Hp. destruct (rowCount_address m parent Hp) as (n & Hn & _).
  exists n. split; [done|]. by apply index_outside.
Qed.

(** C6. Every node has three columns, and only column 0 has children: a
    category address at another column has no rows, and [index] under it
    gives the invalid index whatever the row and the column. *)
Theorem only_column_0_has_children (m : SqlCompletionModel) (parent : Qt.QModelIndex) :
  columnCount parent = 3
  /\ (is_category m parent = true -> Qt.column parent <> 0 ->
      rowCount m parent = Ok 0
      /\ forall row col, index m row col parent = Ok Qt.invalid).
Proof.
  split; [done|]. intros Hp Hcol.
  pose proof (rowCount_other_column m parent Hp Hcol) as Hn.
  split; [done|]. intros row col.
  destruct (Z.lt_ge_cases row 0).
  - by apply index_negative_row.
  - apply (index_outside m row col 0); [done | lia].
Qed.

(** ** What the model's methods keep *)

Lemma same_object_refl (c : Category.t) : same_object c c.
Proof. by repeat split. Qed.

Lemma category_set_pattern_same (db : Sql.engine) (p : string) (c : Category.t) :
  same_object c (Category.set_pattern db p c).1.2.
Proof.
  unfold Category.set_pattern.
  destruct (Sql.run_query _ _ _); simpl; by repeat split.
Qed.

Lemma set_pattern_loop_same (db : Sql.engine) (p : string) (cats : list Category.t) :
  Forall2 same_object cats (set_pattern_loop db p cats).1.2.
Proof.
  induction cats as [|c cats IH]; simpl; [constructor|].
  pose proof (category_set_pattern_same db p c) as Hc.
  destruct (Category.set_pattern db p c) as [[[[]|e] c'] calls]; simpl in *.
  - destruct (set_pattern_loop db p cats) as [[r rest'] calls']; simpl in *.
    by constructor.
  - constructor; [done|]. apply Forall2_same_length_lookup_2; [done|].
    intros i x y Hx Hy. assert (x = y) as -> by congruence. apply same_object_refl.
Qed.

Lemma same_object_oids (cats cats' : list Category.t) :
  Forall2 same_object cats cats' ->
  map Category.oid_of cats' = map Category.oid_of cats.
Proof.
  induction 1 as [|c c' cats cats' (Ho & _) _ IH]; simpl; [done|].
  by rewrite Ho, IH.
Qed.

Lemma set_pattern_model (db : Sql.engine) (raw : string) (m : SqlCompletionModel) :
  exists cats',
    (set_pattern db raw m).1.2 = with_categories cats' (with_pattern raw m)
    /\ Forall2 same_object (_categories m) cats'.
Proof.
  unfold set_pattern.
  pose proof (set_pattern_loop_same db (compile_pattern raw) (_categories m)) as H.
  simpl. destruct (set_pattern_loop _ _ _) as [[r cats'] calls]; simpl in *.
  by exists cats'.
Qed.

(** What [new_category] does to the model: nothing when the constructor
    raises, else one more category at the end, a new object whose fields
    are the columns of its table named by [columns_to_filter]. *)
Lemma new_category_model (o : oid) (db : Sql.engine) (name select : string)
    (where_ sort_by : option string) (sort_order : option Qt.SortOrder)
    (limit : option Z) (m : SqlCompletionModel) :
  let m' := (new_category o db name select where_ sort_by sort_order limit m).1.2 in
  m' = m
  \/ exists cat query,
       m' = with_categories (_categories m ++ [cat]) m
       /\ Category.oid_of cat = o
       /\ Category.tablename cat = name
       /\ db ("select * from " +:+ name +:+ " limit 1") [] = Some query
       /\ Category._fields cat
          = map (fun i => Sql.fieldName query i) (columns_to_filter m).
Proof.
  intros m'. subst m'. unfold new_category, Category.__init__.
  destruct (Sql.run_query db _ []) as [query|e] eqn:Hq; [|by left].
  unfold Sql.run_query in Hq.
  destruct (db _ []) as [query'|] eqn:Hdb; [|done]. injection Hq as ->.
  destruct (Category.build_querystr _ _ _ _ _ _ _) as [querystr|e]; [|by left].
  match goal with |- context [Category.set_pattern db "%" ?c] =>
    pose proof (category_set_pattern_same db "%" c) as (Ho & Ht & Hf & _);
    destruct (Category.set_pattern db "%" c) as [[[[]|e] c'] calls]
  end; cbn [fst snd] in *; [|by left].
  right. by exists c', query.
Qed.

Lemma fetchMore_model (n : nat) (p : Qt.QModelIndex) (m m' : SqlCompletionModel) :
  fetchMore n p m = Ok m' ->
  exists cats',
    m' = with_categories cats' m /\ Forall2 same_object (_categories m) cats'.
Proof.
  unfold fetchMore. destruct (_cat_from_idx m p) as [[c|]|e]; simpl; [| |done].
  - intros [= <-]. eexists. split; [done|].
    apply Forall2_same_length_lookup_2; [by rewrite length_alter|].
    intros i x y Hx Hy.
    destruct (decide (i = Z.to_nat (Qt.row p))) as [->|Hi].
    + rewrite list_lookup_alter_eq, Hx in Hy. simpl in Hy.
      injection Hy as <-. by repeat split.
    + rewrite list_lookup_alter_ne in Hy by done.
      assert (x = y) as -> by congruence. apply same_object_refl.
  - intros [= <-]. exists (_categories m). split; [by destruct m|].
    apply Forall2_same_length_lookup_2; [done|].
    intros i x y Hx Hy. assert (x = y) as -> by congruence. apply same_object_refl.
Qed.

Lemma step_distinct (m m' : SqlCompletionModel) :
  step m m' -> distinct_categories m -> distinct_categories m'.
Proof.
  unfold distinct_categories.
  intros [o db name select where_ sort_by sort_order limit self Ho
         | db raw self | n p self self' Hf] Hm.
  - destruct (new_category_model o db name select where_ sort_by sort_order limit self)
      as [->|(cat & q & -> & Hcat & _)]; [done|].
    simpl. rewrite map_app. simpl. rewrite Hcat.
    apply NoDup_app. split; [done|]. split; [|apply NoDup_singleton].
    intros x Hx ->%list_elem_of_singleton. done.
  - destruct (set_pattern_model db raw self) as (cats' & -> & Hsame).
    simpl. by rewrite (same_object_oids _ _ Hsame).
  - destruct (fetchMore_model _ _ _ _ Hf) as (cats' & -> & Hsame).
    simpl. by rewrite (same_object_oids _ _ Hsame).
Qed.

Lemma reachable_distinct (m : SqlCompletionModel) :
  reachable m -> distinct_categories m.
Proof.
  intros (widths & filter & Hsteps). revert m Hsteps.
  apply rtc_ind_r.
  - apply NoDup_nil_2.
  - intros y z _ Hstep IH. by apply (step_distinct y).
Qed.

(** *** [parent] *)

Lemma categories_index_lookup (cats : list Category.t) (k : nat) (c : Category.t) :
  NoDup (map Category.oid_of cats) -> cats !! k = Some c ->
  categories_index (Category.oid_of c) cats = Ok (Z.of_nat k).
Proof.
  intros Hnd Hk. unfold categories_index.
  assert (list_find (fun c' => Category.oid_of c' = Category.oid_of c) cats
          = Some (k, c)) as ->; [|done].
  apply list_find_Some. split; [done|]. split; [done|].
  intros j y Hj Hlt Heq.
  assert (map Category.oid_of cats !! j = Some (Category.oid_of c)) as Hj'.
  { by rewrite list_lookup_fmap, Hj, <- Heq. }
  assert (map Category.oid_of cats !! k = Some (Category.oid_of c)) as Hk'.
  { by rewrite list_lookup_fmap, Hk. }
  pose proof (NoDup_lookup _ _ _ _ Hnd Hj' Hk'). lia.
Qed.

Lemma parent_of_item (m : SqlCompletionModel) (row col : Z) (k : nat) (c : Category.t) :
  distinct_categories m -> _categories m !! k = Some c ->
  parent m (Qt.createIndex row col (Some (Category.oid_of c)))
  = Ok (Qt.createIndex (Z.of_nat k) 0 None).
Proof.
  intros Hnd Hk. unfold parent. simpl.
  by rewrite (categories_index_lookup _ k c).
Qed.

Lemma rowCount_Ok_category (m : SqlCompletionModel) (p : Qt.QModelIndex) (n : Z) :
  Qt.isValid p = true -> Qt.internalPointer p = None -> rowCount m p = Ok n ->
  is_category m p = true.
Proof.
  intros Hv Hptr. unfold rowCount, _cat_from_idx, is_category.
  rewrite Hv, Hptr. simpl.
  destruct (py_getitem (_categories m) (Qt.row p)) as [c|e] eqn:Hget; [|done].
  intros _. apply py_getitem_Ok, lookup_lt_Some in Hget; [|by apply isValid_row].
  pose proof (isValid_row p Hv). apply Z.ltb_lt. lia.
Qed.

(** C1. In a model built by the methods of the class, take a category
    address at column 0 (a valid index without internal pointer) and a
    position below it ([0 <= row < rowCount(parent)], [0 <= col < 3]):
    [index] returns a valid address and [parent] of that address is the
    category address. *)
Theorem parent_of_index (m : SqlCompletionModel) (p : Qt.QModelIndex)
    (row col n : Z) :
  reachable m ->
  Qt.isValid p = true -> Qt.internalPointer p = None -> Qt.column p = 0 ->
  rowCount m p = Ok n -> 0 <= row < n -> 0 <= col < 3 ->
  exists i,
    index m row col p = Ok i /\ Qt.isValid i = true /\ parent m i = Ok p.
Proof.
  intros Hm%reachable_distinct Hv Hptr Hp0 Hn Hrow Hcol.
  pose proof (rowCount_Ok_category m p n Hv Hptr Hn) as Hp.
  destruct (is_category_lookup m p Hp) as (c & Hc & _).
  rewrite (rowCount_category m p c), Hp0 in Hn by done. simpl in Hn.
  injection Hn as <-. unfold Category.rowCount in Hrow.
  eexists. split; [by apply (index_inside_category m row col p c)|].
  split.
  - unfold Qt.isValid. simpl.
    destruct (Z.leb_spec 0 row); [|lia]. by destruct (Z.leb_spec 0 col); [|lia].
  - rewrite (parent_of_item m row col (Z.to_nat (Qt.row p)) c) by done.
    pose proof (isValid_row p Hv).
    destruct p as [r c0 ptr hm]. unfold Qt.isValid in *. simpl in *. split_andb.
    subst. unfold Qt.createIndex. by rewrite Z2Nat.id.
Qed.

(** ** [first_item] and [last_item] *)

Lemma enumerate_from_app {A : Type} (s : Z) (l1 l2 : list A) :
  enumerate_from s (l1 ++ l2)
  = enumerate_from s l1 ++ enumerate_from (s + Z.of_nat (length l1)) l2.
Proof.
  revert s. induction l1 as [|x l1 IH]; intros s; simpl.
  - by rewrite Z.add_0_r.
  - rewrite IH. do 3 f_equal. lia.
Qed.

Lemma enumerate_from_no_rows (s : Z) (l : list Category.t) :
  Forall no_rows l -> Forall (fun rc => no_rows rc.2) (enumerate_from s l).
Proof.
  intros H. revert s. induction H as [|c l Hc _ IH]; intros s; simpl;
    constructor; auto.
Qed.

Lemma first_item_loop_skip (m : SqlCompletionModel) (l1 l2 : list (Z * Category.t)) :
  Forall (fun rc => no_rows rc.2) l1 ->
  first_item_loop m (l1 ++ l2) = first_item_loop m l2.
Proof.
  induction 1 as [|[row c] l1 Hc _ IH]; simpl; [done|].
  unfold no_rows in Hc. simpl in Hc. unfold Category.rowCount. by rewrite Hc.
Qed.

Lemma last_item_loop_skip (m : SqlCompletionModel) (l1 l2 : list (Z * Category.t)) :
  Forall (fun rc => no_rows rc.2) l1 ->
  last_item_loop m (l1 ++ l2) = last_item_loop m l2.
Proof.
  induction 1 as [|[row c] l1 Hc _ IH]; simpl; [done|].
  unfold no_rows in Hc. simpl in Hc. unfold Category.rowCount. by rewrite Hc.
Qed.

(** The address of row [r] of the category at position [k], reached as
    the methods do: first the category under the root, then the row under
    the category. *)
Lemma index_of_item (m : SqlCompletionModel) (k : nat) (c : Category.t) (r : Z) :
  _categories m !! k = Some c -> 0 <= r < Z.of_nat (Category.rows c) ->
  index m (Z.of_nat k) 0 Qt.invalid = Ok (Qt.createIndex (Z.of_nat k) 0 None)
  /\ index m r 0 (Qt.createIndex (Z.of_nat k) 0 None)
     = Ok (Qt.createIndex r 0 (Some (Category.oid_of c))).
Proof.
  intros Hk Hr. pose proof (lookup_lt_Some _ _ _ Hk) as Hlt. split.
  - apply index_inside_root; [done|lia..].
  - apply index_inside_category; try done; try lia.
    + unfold is_category, Qt.isValid. simpl.
      destruct (Z.leb_spec 0 (Z.of_nat k)); [|lia].
      by destruct (Z.ltb_spec (Z.of_nat k) (Z.of_nat (length (_categories m)))); [|lia].
    + unfold category_of. simpl. by rewrite Nat2Z.id.
Qed.

Lemma first_item_loop_found (m : SqlCompletionModel) (k : nat) (c : Category.t)
    (rest : list (Z * Category.t)) :
  _categories m !! k = Some c -> (0 < Category.rows c)%nat ->
  first_item_loop m ((Z.of_nat k, c) :: rest)
  = Ok (Qt.createIndex 0 0 (Some (Category.oid_of c))).
Proof.
  intros Hk Hc. simpl. unfold Category.rowCount.
  destruct (Z.ltb_spec 0 (Z.of_nat (Category.rows c))); [|lia].
  destruct (index_of_item m k c 0 Hk) as [-> Hi]; [lia|]. simpl.
  by rewrite Hi.
Qed.

Lemma last_item_loop_found (m : SqlCompletionModel) (k : nat) (c : Category.t)
    (rest : list (Z * Category.t)) :
  _categories m !! k = Some c -> (0 < Category.rows c)%nat ->
  last_item_loop m ((Z.of_nat k, c) :: rest)
  = Ok (Qt.createIndex (Z.of_nat (Category.rows c) - 1) 0
          (Some (Category.oid_of c))).
Proof.
  intros Hk Hc. simpl. unfold Category.rowCount.
  destruct (Z.ltb_spec 0 (Z.of_nat (Category.rows c))); [|lia].
  destruct (index_of_item m k c (Z.of_nat (Category.rows c) - 1) Hk) as [-> Hi];
    [lia|]. simpl. rewrite Hi. simpl.
  unfold ensure_valid, Qt.isValid. simpl.
  by destruct (Z.leb_spec 0 (Z.of_nat (Category.rows c) - 1)); [|lia].
Qed.

(** C8. [first_item] stops at the first category that has rows and
    returns the address of its row 0 at column 0; [last_item] stops at the
    last category that has rows and returns the address of its last row at
    column 0; both return the invalid index when no category has rows,
    and so when there is no category. *)
Theorem first_and_last_item (m : SqlCompletionModel) :
  (Forall no_rows (_categories m) ->
     first_item m = Ok Qt.invalid /\ last_item m = Ok Qt.invalid)
  /\ (forall before c after,
        _categories m = before ++ c :: after ->
        Forall no_rows before -> (0 < Category.rows c)%nat ->
        let category := Qt.createIndex (Z.of_nat (length before)) 0 None in
        index m (Z.of_nat (length before)) 0 Qt.invalid = Ok category
        /\ first_item m = index m 0 0 category
        /\ first_item m = Ok (Qt.createIndex 0 0 (Some (Category.oid_of c))))
  /\ (forall before c after,
        _categories m = before ++ c :: after ->
        Forall no_rows after -> (0 < Category.rows c)%nat ->
        let category := Qt.createIndex (Z.of_nat (length before)) 0 None in
        let last_row := Z.of_nat (Category.rows c) - 1 in
        index m (Z.of_nat (length before)) 0 Qt.invalid = Ok category
        /\ last_item m = index m last_row 0 category
        /\ last_item m = Ok (Qt.createIndex last_row 0 (Some (Category.oid_of c)))).
Proof.
  split; [|split].
  - intros H. unfold first_item, last_item, enumerate. split.
    + rewrite <- (List.app_nil_r (enumerate_from 0 _)).
      rewrite first_item_loop_skip; [done|]. by apply enumerate_from_no_rows.
    + rewrite <- (List.app_nil_r (rev _)).
      rewrite last_item_loop_skip; [done|].
      apply Forall_rev. by apply enumerate_from_no_rows.
  - intros before c after Hcats Hbefore Hc category. subst category.
    assert (_categories m !! length before = Some c) as Hk.
    { rewrite Hcats. by apply list_lookup_middle. }
    destruct (index_of_item m (length before) c 0 Hk) as [Hcat Hitem]; [lia|].
    assert (first_item m = Ok (Qt.createIndex 0 0 (Some (Category.oid_of c))))
      as Hfirst; [|by rewrite Hitem].
    unfold first_item, enumerate. rewrite Hcats, enumerate_from_app.
    rewrite first_item_loop_skip by by apply enumerate_from_no_rows.
    simpl. by apply (first_item_loop_found m _ c).
  - intros before c after Hcats Hafter Hc category last_row.
    subst category last_row.
    assert (_categories m !! length before = Some c) as Hk.
    { rewrite Hcats. by apply list_lookup_middle. }
    destruct (index_of_item m (length before) c (Z.of_nat (Category.rows c) - 1) Hk)
      as [Hcat Hitem]; [lia|].
    assert (last_item m
            = Ok (Qt.createIndex (Z.of_nat (Category.rows c) - 1) 0
                    (Some (Category.oid_of c))))
      as Hlast; [|by rewrite Hitem].
    unfold last_item, enumerate. rewrite Hcats, enumerate_from_app.
    simpl. rewrite rev_app_distr. simpl. rewrite <- List.app_assoc.
    rewrite last_item_loop_skip
      by (apply Forall_rev; by apply enumerate_from_no_rows).
    simpl. by apply (last_item_loop_found m _ c).
Qed.

(** ** [set_pattern] *)

Lemma map_const_replicate {A B : Type} (x : B) (l : list A) :
  map (fun _ => x) l = replicate (length l) x.
Proof. induction l as [|a l IH]; simpl; [done | by rewrite IH]. Qed.

Lemma category_set_pattern_call (db : Sql.engine) (p : string) (c : Category.t) :
  (Category.set_pattern db p c).2 = [(Category._querystr c, bound_values p c)].
Proof.
  unfold Category.set_pattern, bound_values. rewrite map_const_replicate.
  by destruct (Sql.run_query _ _ _).
Qed.

Lemma category_set_pattern_applied (db : Sql.engine) (p : string) (c : Category.t) :
  is_Some (db (Category._querystr c) (bound_values p c)) ->
  (Category.set_pattern db p c).1.1 = Ok tt
  /\ applied db p c (Category.set_pattern db p c).1.2.
Proof.
  intros [q Hq]. unfold Category.set_pattern, Sql.run_query.
  rewrite map_const_replicate. fold (bound_values p c). rewrite Hq. simpl.
  split; [done|]. by exists q.
Qed.

Lemma set_pattern_loop_prefix (db : Sql.engine) (p : string) (cats : list Category.t) :
  (set_pattern_loop db p cats).2 `prefix_of` broadcast p cats.
Proof.
  induction cats as [|c cats IH]; simpl; [done|].
  pose proof (category_set_pattern_call db p c) as Hcall.
  destruct (Category.set_pattern db p c) as [[[[]|e] c'] calls]; simpl in *; subst.
  - destruct (set_pattern_loop db p cats) as [[r rest'] calls']; simpl in *.
    by apply prefix_cons.
  - apply prefix_cons, prefix_nil.
Qed.

Lemma set_pattern_loop_all (db : Sql.engine) (p : string) (cats : list Category.t) :
  (forall c, c ∈ cats -> is_Some (db (Category._querystr c) (bound_values p c))) ->
  (set_pattern_loop db p cats).1.1 = Ok tt
  /\ (set_pattern_loop db p cats).2 = broadcast p cats
  /\ Forall2 (applied db p) cats (set_pattern_loop db p cats).1.2.
Proof.
  induction cats as [|c cats IH]; intros Hdb; simpl; [by repeat constructor|].
  pose proof (category_set_pattern_call db p c) as Hcall.
  destruct (category_set_pattern_applied db p c) as [Hr Hc'];
    [apply Hdb; by left|].
  destruct (Category.set_pattern db p c) as [[r c'] calls]; simpl in *; subst.
  destruct IH as (Hr' & Hcalls & Hcats); [intros c0 Hc0; apply Hdb; by right|].
  destruct (set_pattern_loop db p cats) as [[r rest'] calls']; simpl in *; subst.
  split; [done|]. split; [done|]. by constructor.
Qed.

(** C5. [set_pattern(raw)] stores [raw] as it is in the [pattern]
    attribute, and queries the categories in the order of the list, each
    with the compiled pattern (not with [raw]) bound once for each of its
    fields. The queries run up to the first that the database refuses;
    when it refuses none, every category is queried, the call returns and
    each category shows the rows of its query. *)
Theorem set_pattern_broadcasts (db : Sql.engine) (raw : string)
    (m : SqlCompletionModel) :
  let result := (set_pattern db raw m).1.1 in
  let m' := (set_pattern db raw m).1.2 in
  let calls := (set_pattern db raw m).2 in
  let compiled := compile_pattern raw in
  pattern m' = raw
  /\ calls `prefix_of` broadcast compiled (_categories m)
  /\ ((forall c, c ∈ _categories m ->
         is_Some (db (Category._querystr c) (bound_values compiled c))) ->
      result = Ok tt
      /\ calls = broadcast compiled (_categories m)
      /\ Forall2 (applied db compiled) (_categories m) (_categories m')).
Proof.
  unfold set_pattern. simpl.
  pose proof (set_pattern_loop_prefix db (compile_pattern raw) (_categories m)) as Hpre.
  pose proof (set_pattern_loop_all db (compile_pattern raw) (_categories m)) as Hall.
  destruct (set_pattern_loop _ _ _) as [[r cats'] calls]; simpl in *.
  done.
Qed.

(** ** [columns_to_filter] *)

(** With [columns_to_filter == [0]], a category created by [new_category]
    filters on one field, the first column of its table. *)
Lemma new_category_first_column (o : oid) (db : Sql.engine) (name select : string)
    (where_ sort_by : option string) (sort_order : option Qt.SortOrder)
    (limit : option Z) (m : SqlCompletionModel) :
  columns_to_filter m = [0] ->
  let m' := (new_category o db name select where_ sort_by sort_order limit m).1.2 in
  m' = m
  \/ exists cat query,
       m' = with_categories (_categories m ++ [cat]) m
       /\ db ("select * from " +:+ name +:+ " limit 1") [] = Some query
       /\ Category._fields cat = [Sql.fieldName query 0].
Proof.
  intros Hm m'.
  destruct (new_category_model o db name select where_ sort_by sort_order limit m)
    as [H|(cat & query & H & _ & _ & Hq & Hf)]; [by left|].
  right. exists cat, query. rewrite Hm in Hf. done.
Qed.

Lemma same_object_one_field (cats cats' : list Category.t) :
  Forall2 same_object cats cats' -> Forall one_field cats -> Forall one_field cats'.
Proof.
  induction 1 as [|c c' cats cats' (_ & _ & Hf & _) _ IH]; [done|].
  intros [Hc Hcats]%Forall_cons. constructor; [|by apply IH].
  unfold one_field in *. by rewrite Hf.
Qed.

Lemma step_first_column (m m' : SqlCompletionModel) :
  step m m' ->
  columns_to_filter m = [0] /\ Forall one_field (_categories m) ->
  columns_to_filter m' = [0] /\ Forall one_field (_categories m').
Proof.
  intros [o db name select where_ sort_by sort_order limit self Ho
         | db raw self | n p self self' Hf] [Hm Hcats].
  - destruct (new_category_first_column o db name select where_ sort_by sort_order
                limit self Hm) as [->|(cat & q & -> & _ & Hcat)]; [done|].
    simpl. split; [done|]. apply Forall_app. split; [done|].
    constructor; [|done]. unfold one_field. by rewrite Hcat.
  - destruct (set_pattern_model db raw self) as (cats' & -> & Hsame).
    simpl. split; [done|]. by apply (same_object_one_field (_categories self)).
  - destruct (fetchMore_model _ _ _ _ Hf) as (cats' & -> & Hsame).
    simpl. split; [done|]. by apply (same_object_one_field (_categories self)).
Qed.

(** C10. Built without [columns_to_filter], with [None] or with the empty
    list, the model has [columns_to_filter == [0]]; a list that is not
    empty is stored as it is. In the first case the attribute is still
    [[0]] after any calls of the methods, each category created meanwhile
    has one filtered field, and that field is the first column of its
    table. *)
Theorem columns_to_filter_default (widths : list Z) :
  columns_to_filter (__init__ widths None) = [0]
  /\ columns_to_filter (__init__ widths (Some [])) = [0]
  /\ (forall l, l <> [] -> columns_to_filter (__init__ widths (Some l)) = l)
  /\ (forall filter m,
        filter = None \/ filter = Some [] ->
        rtc step (__init__ widths filter) m ->
        columns_to_filter m = [0]
        /\ Forall one_field (_categories m)
        /\ forall o db name select where_ sort_by sort_order limit,
             let m' := (new_category o db name select where_ sort_by sort_order
                          limit m).1.2 in
             m' = m
             \/ exists cat query,
                  m' = with_categories (_categories m ++ [cat]) m
                  /\ db ("select * from " +:+ name +:+ " limit 1") [] = Some query
                  /\ Category._fields cat = [Sql.fieldName query 0]).
Proof.
  split; [done|]. split; [done|]. split; [by intros [|z l]|].
  intros filter m Hfilter Hsteps.
  assert (columns_to_filter m = [0] /\ Forall one_field (_categories m)) as [Hm Hcats].
  { revert m Hsteps. apply rtc_ind_r.
    - by destruct Hfilter as [-> | ->].
    - intros y z _ Hstep IH. by apply (step_first_column y). }
  split; [done|]. split; [done|]. intros. by apply new_category_first_column.
Qed.

(** ** The model with two tables *)

(** The model is the one these calls build. *)
Lemma demo_model_built :
  let m0 := __init__ default_column_widths None in
  let m1 := (new_category 1%nat demo_db "Empty" "*" None None None None m0).1.2 in
  demo_model
  = (new_category 2%nat demo_db "History" "url, title" None (Some "last_atime")
       (Some Qt.DescendingOrder) (Some 100) m1).1.2.
Proof. reflexivity. Qed.

Lemma demo_model_steps : rtc step (__init__ default_column_widths None) demo_model.
Proof.
  rewrite demo_model_built.
  eapply rtc_l; [|eapply rtc_l; [|apply rtc_refl]].
  - apply step_new_category. simpl. apply not_elem_of_nil.
  - apply step_new_category. vm_compute.
    intros H%list_elem_of_singleton. discriminate.
Qed.

Lemma demo_model_reachable : reachable demo_model.
Proof. eexists _, _. apply demo_model_steps. Qed.

Lemma parent_of_index_witness :
  exists i,
    index demo_model 2 1 (Qt.createIndex 1 0 None) = Ok i
    /\ Qt.isValid i = true
    /\ parent demo_model i = Ok (Qt.createIndex 1 0 None).
Proof.
  apply (parent_of_index demo_model (Qt.createIndex 1 0 None) 2 1 3);
    [apply demo_model_reachable | reflexivity.. | lia | lia].
Defined.

Lemma rowCount_cases_witness :
  rowCount demo_model Qt.invalid = Ok 2
  /\ rowCount demo_model (Qt.createIndex 1 0 None) = Ok 3
  /\ rowCount demo_model (Qt.createIndex 0 0 (Some 2%nat)) = Ok 0
  /\ rowCount demo_model (Qt.createIndex 1 2 None) = Ok 0.
Proof.
  split; [|split; [|split]].
  - exact (proj1 (rowCount_cases demo_model Qt.invalid) eq_refl).
  - exact (proj1 (proj2 (rowCount_cases demo_model (Qt.createIndex 1 0 None)))
             demo_history eq_refl eq_refl eq_refl).
  - exact (proj1 (proj2 (proj2 (rowCount_cases demo_model
                                  (Qt.createIndex 0 0 (Some 2%nat))))) eq_refl).
  - apply (proj2 (proj2 (proj2 (rowCount_cases demo_model (Qt.createIndex 1 2 None))))).
    + reflexivity.
    + simpl. lia.
Defined.

Lemma set_pattern_broadcasts_witness :
  pattern (set_pattern demo_db "50% off" demo_model).1.2 = "50% off"
  /\ (set_pattern demo_db "50% off" demo_model).2
     = [(Category._querystr demo_empty, ["%50" +:+ String backslash "%%off%"]);
        (Category._querystr demo_history, ["%50" +:+ String backslash "%%off%"])].
Proof.
  destruct (set_pattern_broadcasts demo_db "50% off" demo_model) as (Hp & _ & Hall).
  split; [exact Hp|].
  destruct Hall as (_ & Hcalls & _); [|exact Hcalls].
  intros c _. by eexists.
Defined.

Lemma only_column_0_has_children_witness :
  rowCount demo_model (Qt.createIndex 1 2 None) = Ok 0
  /\ index demo_model 0 0 (Qt.createIndex 1 2 None) = Ok Qt.invalid.
Proof.
  destruct (only_column_0_has_children demo_model (Qt.createIndex 1 2 None))
    as [_ H].
  destruct H as [Hrows Hindex]; [reflexivity | simpl; lia |].
  split; [exact Hrows | apply Hindex].
Defined.

Lemma index_out_of_range_witness :
  index demo_model 2 0 Qt.invalid = Ok Qt.invalid.
Proof.
  destruct (index_out_of_range demo_model Qt.invalid 2 0 eq_refl) as (n & Hn & H).
  apply H. vm_compute in Hn. injection Hn as <-. lia.
Defined.

Lemma first_and_last_item_witness :
  first_item demo_model = Ok (Qt.createIndex 0 0 (Some 2%nat))
  /\ last_item demo_model = Ok (Qt.createIndex 2 0 (Some 2%nat))
  /\ first_item (__init__ default_column_widths None) = Ok Qt.invalid.
Proof.
  destruct (first_and_last_item demo_model) as (_ & Hfirst & Hlast).
  split; [|split].
  - apply (Hfirst [demo_empty] demo_history []); [reflexivity | | simpl; lia].
    by repeat constructor.
  - apply (Hlast [demo_empty] demo_history []); [reflexivity | | simpl; lia].
    constructor.
  - apply (proj1 (first_and_last_item (__init__ default_column_widths None))).
    constructor.
Defined.

Lemma columns_to_filter_default_witness :
  columns_to_filter (__init__ default_column_widths (Some [1; 2])) = [1; 2]
  /\ columns_to_filter demo_model = [0]
  /\ Forall one_field (_categories demo_model).
Proof.
  destruct (columns_to_filter_default default_column_widths) as (_ & _ & Hl & Hm).
  split; [by apply Hl|].
  destruct (Hm None demo_model) as (H0 & H1 & _);
    [by left | apply demo_model_steps | done].
Defined.

(** * Further properties *)

(** ** The compiled pattern *)

Lemma collapse_after_run (c : ascii) (repl t : string) :
  collapse c repl true t
  = collapse c repl false (PyStr.drop (PyStr.match_plus c t) t).
Proof.
  induction t as [|b t IH]; simpl; [done|].
  destruct (Ascii.eqb b c) eqn:Hb; simpl; [done|]. by rewrite Hb.
Qed.

Lemma re_sub_plus_collapse (c : ascii) (repl s : string) :
  PyStr.re_sub_plus c repl s = collapse c repl false s.
Proof.
  remember (String.length s) as n eqn:Hn. revert s Hn.
  induction n as [n IH] using lt_wf_ind. intros [|b t] Hn; [done|].
  simpl in Hn. simpl. destruct (Ascii.eqb_spec b c) as [->|Hb].
  - rewrite re_sub_plus_match, collapse_after_run. f_equal.
    apply (IH (String.length (PyStr.drop (PyStr.match_plus c t) t))); [|done].
    pose proof (length_drop (PyStr.match_plus c t) t). lia.
  - rewrite re_sub_plus_other by done. f_equal. apply (IH (String.length t)); [lia|done].
Qed.

Lemma compile_pattern_collapse (raw : string) :
  compile_pattern raw = "%" +:+ collapse " " "%" false (escape raw) +:+ "%".
Proof. by rewrite compile_pattern_escape, re_sub_plus_collapse. Qed.

Lemma collapse_no_space (f : bool) (s : string) :
  all_chars (fun b => negb (is_space b)) (collapse " " "%" f s) = true.
Proof.
  revert f. induction s as [|b s IH]; intros f; simpl; [done|].
  destruct (Ascii.eqb b " ") eqn:Hb.
  - destruct f; simpl; apply IH.
  - simpl. unfold is_space at 1. rewrite Hb. simpl. apply IH.
Qed.

(** X1. No space is left in a compiled pattern. *)
Theorem compile_pattern_no_space (raw : string) :
  all_chars (fun b => negb (is_space b)) (compile_pattern raw) = true.
Proof.
  rewrite compile_pattern_collapse. simpl.
  by rewrite all_chars_app, collapse_no_space.
Qed.




Lemma collapse_spaces_true (n : nat) (s : string) :
  collapse " " "%" true (spaces n +:+ s) = collapse " " "%" true s.
Proof. induction n as [|n IH]; [done|]. simpl. apply IH. Qed.

Lemma collapse_run (f : bool) (n : nat) (x y : string) :
  collapse " " "%" f (x +:+ spaces (S n) +:+ y)
  = collapse " " "%" f (x +:+ String " " y).
Proof.
  revert f. induction x as [|b x IH]; intros f.
  - simpl. by rewrite collapse_spaces_true.
  - cbn [String.append collapse]. destruct (Ascii.eqb b " "); [destruct f|];
      by rewrite IH.
Qed.

Lemma escape_spaces (n : nat) : escape (spaces n) = spaces n.
Proof. induction n as [|n IH]; [done|]. simpl. by rewrite IH. Qed.

(** X3. Only the presence of a run of spaces counts, not its length: a
    run of several spaces compiles as a single space does. *)
Theorem compile_pattern_run_length (n : nat) (a b : string) :
  compile_pattern (a +:+ spaces (S n) +:+ b)
  = compile_pattern (a +:+ String " " b).
Proof.
  rewrite !compile_pattern_collapse, !escape_app, escape_spaces.
  change (escape (String " " b)) with (String " " (escape b)).
  by rewrite collapse_run.
Qed.

Lemma escape_plain (s : string) : all_chars is_plain s = true -> escape s = s.
Proof.
  induction s as [|c s IH]; [done|]. cbn [all_chars escape].
  intros [Hc Hs]%andb_prop. rewrite IH by done.
  unfold is_plain in Hc. unfold escape_char.
  destruct (Ascii.eqb c "%"); [done|]. by destruct (Ascii.eqb c "_").
Qed.

Lemma collapse_plain (s : string) :
  all_chars is_plain s = true -> collapse " " "%" false s = s.
Proof.
  induction s as [|c s IH]; [done|]. cbn [all_chars collapse].
  intros [Hc Hs]%andb_prop. rewrite IH by done.
  unfold is_plain in Hc. destruct (Ascii.eqb c " "); [|done].
  by rewrite andb_false_r in Hc.
Qed.

(** X4. A text without ['%'], ['_'] and space is only wrapped. *)
Theorem compile_pattern_plain (raw : string) :
  all_chars is_plain raw = true ->
  compile_pattern raw = "%" +:+ raw +:+ "%".
Proof.
  intros H. rewrite compile_pattern_collapse, escape_plain by done.
  by rewrite collapse_plain.
Qed.

Lemma compile_pattern_plain_witness :
  all_chars is_plain "qute://help" = true
  /\ compile_pattern "qute://help" = "%qute://help%".
Proof.
  split; [reflexivity|]. by apply (compile_pattern_plain "qute://help").
Defined.




(** ** The tree *)

Lemma categories_index_Ok (o : oid) (cats : list Category.t) (k : Z) :
  categories_index o cats = Ok k ->
  0 <= k /\ exists c, cats !! Z.to_nat k = Some c /\ Category.oid_of c = o.
Proof.
  unfold categories_index.
  destruct (list_find _ cats) as [[i c]|] eqn:Hfind; [|done].
  intros [= <-]. apply list_find_Some in Hfind as (Hi & Ho & _).
  split; [lia|]. exists c. by rewrite Nat2Z.id.
Qed.

Lemma categories_index_Raise (o : oid) (cats : list Category.t) (e : exn) :
  categories_index o cats = Raise e ->
  e = ValueError /\ o ∉ map Category.oid_of cats.
Proof.
  unfold categories_index.
  destruct (list_find _ cats) as [[i c]|] eqn:Hfind; [done|].
  intros [= <-]. split; [done|].
  intros (c & -> & Hc)%list_elem_of_fmap.
  apply list_find_None in Hfind. rewrite Forall_forall in Hfind.
  by apply (Hfind c).
Qed.

(** X6. The tree has two levels: [parent] returns the invalid index or the
    address, at column 0, of one of the model's categories, and the
    parent of what it returns is the invalid index. *)
Theorem parent_of_parent (m : SqlCompletionModel) (i p : Qt.QModelIndex) :
  parent m i = Ok p ->
  (p = Qt.invalid \/ (is_category m p = true /\ Qt.column p = 0))
  /\ parent m p = Ok Qt.invalid.
Proof.
  unfold parent. destruct (Qt.internalPointer i) as [o|]; simpl.
  - destruct (categories_index o (_categories m)) as [k|e] eqn:Hk; [|done].
    simpl. intros [= <-]. split; [|done]. right. split; [|done].
    apply categories_index_Ok in Hk as (Hk & c & Hc & _).
    apply lookup_lt_Some in Hc.
    unfold is_category, Qt.isValid. simpl.
    destruct (Z.leb_spec 0 k); [|lia].
    by destruct (Z.ltb_spec k (Z.of_nat (length (_categories m)))); [|lia].
  - intros [= <-]. split; [by left | done].
Qed.

Lemma parent_of_parent_witness :
  parent demo_model (Qt.createIndex 1 0 None) = Ok Qt.invalid.
Proof.
  apply (parent_of_parent demo_model (Qt.createIndex 2 1 (Some 2%nat))
           (Qt.createIndex 1 0 None)).
  reflexivity.
Defined.


(** X7. [parent] raises only [ValueError], and exactly when the internal
    pointer of the index is an object the model does not hold. *)
Theorem parent_raises (m : SqlCompletionModel) (i : Qt.QModelIndex) (e : exn) :
  parent m i = Raise e
  <-> e = ValueError
      /\ exists o, Qt.internalPointer i = Some o /\ o ∉ oids m.
Proof.
  unfold parent, oids. destruct (Qt.internalPointer i) as [o|]; simpl.
  - destruct (categories_index o (_categories m)) as [k|e'] eqn:Hk; simpl.
    + split; [done|]. intros (_ & o' & [= <-] & Ho).
      apply categories_index_Ok in Hk as (_ & c & Hc & <-).
      destruct Ho. apply list_elem_of_fmap. exists c. split; [done|].
      by apply list_elem_of_lookup_2 in Hc.
    + apply categories_index_Raise in Hk as [-> Ho]. split.
      * intros [= <-]. split; [done|]. by exists o.
      * by intros [-> _].
  - split; [done|]. by intros (_ & o & [=] & _).
Qed.

(** What [index] returns when it returns a valid index. *)
Lemma index_valid_inv (m : SqlCompletionModel) (row col : Z)
    (p i : Qt.QModelIndex) :
  index m row col p = Ok i -> Qt.isValid i = true ->
  0 <= row /\ 0 <= col < 3
  /\ ((is_root p = true /\ row < Z.of_nat (length (_categories m))
       /\ i = Qt.createIndex row col None)
      \/ (is_category m p = true /\ Qt.column p = 0
          /\ exists c, category_of m p = Some c
                       /\ row < Z.of_nat (Category.rows c)
                       /\ i = Qt.createIndex row col (Some (Category.oid_of c)))).
Proof.
  unfold index.
  destruct (Z.ltb_spec row 0); [by intros [= <-]|].
  destruct (rowCount m p) as [n|e] eqn:Hn; [|done]. simpl.
  destruct (Z.leb_spec n row); [by intros [= <-]|].
  destruct (Z.ltb_spec col 0); [by intros [= <-]|].
  unfold columnCount. destruct (Z.leb_spec 3 col); [by intros [= <-]|].
  destruct (Qt.isValid p) eqn:Hp.
  - destruct (Z.eqb_spec (Qt.column p) 0) as [Hcol|Hcol]; [|by intros [= <-]].
    simpl.
    destruct (py_getitem (_categories m) (Qt.row p)) as [c|e] eqn:Hc; [|done].
    simpl. intros [= <-] _. split; [done|]. split; [done|]. right.
    destruct (Qt.internalPointer p) as [o|] eqn:Hptr.
    { rewrite rowCount_item in Hn; [|unfold is_item; by rewrite Hp, Hptr].
      injection Hn as <-. lia. }
    pose proof (rowCount_Ok_category m p n Hp Hptr Hn) as Hcat.
    split; [done|]. split; [done|]. exists c.
    apply py_getitem_Ok in Hc; [|by apply isValid_row].
    rewrite (rowCount_category m p c), Hcol in Hn by done. simpl in Hn.
    injection Hn as <-. unfold Category.rowCount in *. done.
  - intros [= <-] _. split; [done|]. split; [done|]. left.
    rewrite rowCount_root in Hn by (unfold is_root; by rewrite Hp).
    injection Hn as <-. unfold is_root. by rewrite Hp.
Qed.

(** X8. [index] never raises under an address of the model, and what it
    returns is an address of the model again. *)
Theorem index_closed (m : SqlCompletionModel) (row col : Z) (p : Qt.QModelIndex) :
  is_address m p = true ->
  exists i, index m row col p = Ok i /\ is_address m i = true.
Proof.
  intros Hp. destruct (rowCount_address m p Hp) as (n & Hn & _).
  destruct (index m row col p) as [i|e] eqn:Hi.
  - exists i. split; [done|]. unfold is_address.
    destruct (Qt.isValid i) eqn:Hv; [|unfold is_root; by rewrite Hv].
    destruct (index_valid_inv m row col p i Hi Hv)
      as (Hrow & Hcol & [(_ & Hlt & ->)|(_ & _ & c & _ & _ & ->)]).
    + assert (is_category m (Qt.createIndex row col None) = true) as ->;
        [|by rewrite orb_true_r].
      unfold is_category. rewrite Hv. simpl. apply Z.ltb_lt. lia.
    + assert (is_item (Qt.createIndex row col (Some (Category.oid_of c))) = true)
        as ->; [|by rewrite orb_true_r].
      unfold is_item. by rewrite Hv.
  - exfalso. unfold index in Hi.
    destruct (Z.ltb_spec row 0); [done|]. rewrite Hn in Hi. simpl in Hi.
    destruct (Z.leb_spec n row); [done|].
    destruct (col <? 0); [done|]. destruct (columnCount p <=? col); [done|].
    destruct (Qt.isValid p) eqn:Hv; [|done].
    destruct (negb (Qt.column p =? 0)); [done|].
    destruct (Qt.internalPointer p) as [o|] eqn:Hptr.
    { rewrite rowCount_item in Hn; [|unfold is_item; by rewrite Hv, Hptr].
      injection Hn as <-. lia. }
    pose proof (rowCount_Ok_category m p n Hv Hptr Hn) as Hcat.
    destruct (is_category_lookup m p Hcat) as (c & _ & Hget).
    by rewrite Hget in Hi.
Qed.

Lemma index_closed_witness :
  exists i,
    index demo_model 7 0 (Qt.createIndex 1 0 None) = Ok i
    /\ is_address demo_model i = true.
Proof. apply (index_closed demo_model 7 0 (Qt.createIndex 1 0 None)). reflexivity. Defined.

Lemma parent_raises_witness :
  parent demo_model (Qt.createIndex 0 0 (Some 5%nat)) = Raise ValueError.
Proof.
  apply (parent_raises demo_model (Qt.createIndex 0 0 (Some 5%nat)) ValueError).
  split; [reflexivity|]. exists 5%nat. split; [reflexivity|].
  unfold oids. simpl. intros H.
  apply elem_of_cons in H as [H|H]; [discriminate|].
  apply elem_of_cons in H as [H|H]; [discriminate|].
  by apply not_elem_of_nil in H.
Defined.

(** X9. In a model built by the methods of the class, a valid address is
    returned for one position only: the same row, the same column, and
    the same parent (the root, or the same category). *)
Theorem index_injective (m : SqlCompletionModel) (row col row' col' : Z)
    (p p' i : Qt.QModelIndex) :
  reachable m ->
  index m row col p = Ok i -> index m row' col' p' = Ok i ->
  Qt.isValid i = true ->
  row = row' /\ col = col'
  /\ Qt.isValid p = Qt.isValid p'
  /\ (Qt.isValid p = true -> Qt.row p = Qt.row p').
Proof.
  intros Hm%reachable_distinct Hi Hi' Hv.
  destruct (index_valid_inv m row col p i Hi Hv)
    as (Hrow & Hcol & [(Hp & _ & ->)|(Hp & _ & c & Hc & _ & ->)]);
  destruct (index_valid_inv m row' col' p' _ Hi' Hv)
    as (Hrow' & Hcol' & [(Hp' & _ & Heq)|(Hp' & _ & c' & Hc' & _ & Heq)]);
    try discriminate.
  - injection Heq as -> ->. unfold is_root in *. apply negb_true_iff in Hp, Hp'. rewrite Hp, Hp'. done.
  - injection Heq as -> -> Ho. unfold is_category in Hp, Hp'. destruct_andb.
    repeat match goal with H : Qt.isValid _ = true |- _ => rewrite H end.
    split; [done|]. split; [done|]. split; [done|]. intros _.
    unfold category_of, distinct_categories in *.
    assert (map Category.oid_of (_categories m) !! Z.to_nat (Qt.row p)
            = Some (Category.oid_of c)) as Hk.
    { by rewrite list_lookup_fmap, Hc. }
    assert (map Category.oid_of (_categories m) !! Z.to_nat (Qt.row p')
            = Some (Category.oid_of c)) as Hk'.
    { by rewrite list_lookup_fmap, Hc', Ho. }
    pose proof (NoDup_lookup _ _ _ _ Hm Hk Hk').
    pose proof (isValid_row p ltac:(done)). pose proof (isValid_row p' ltac:(done)).
    lia.
Qed.

Lemma index_injective_witness :
  (2 : Z) = 2 /\ (1 : Z) = 1
  /\ Qt.isValid (Qt.createIndex 1 0 None) = Qt.isValid (Qt.createIndex 1 0 None)
  /\ (Qt.isValid (Qt.createIndex 1 0 None) = true ->
      Qt.row (Qt.createIndex 1 0 None) = Qt.row (Qt.createIndex 1 0 None)).
Proof.
  apply (index_injective demo_model 2 1 2 1 (Qt.createIndex 1 0 None)
           (Qt.createIndex 1 0 None) (Qt.createIndex 2 1 (Some 2%nat)));
    [apply demo_model_reachable | reflexivity..].
Defined.

(** *** [data] and [flags] *)

Section ViewFacts.

Context {V : Type} (table_data : Category.t -> Z -> Z -> option V).

Lemma QModelIndex_parent_valid (m : SqlCompletionModel) (i : Qt.QModelIndex) :
  Qt.isValid i = true -> QModelIndex_parent m i = parent m i.
Proof.
  unfold QModelIndex_parent, Qt.isValid. intros H. split_andb.
  by repeat match goal with H : _ = true |- _ => rewrite H end.
Qed.

(** X10. [data] gives nothing for an invalid index and for a role other
    than [DisplayRole]; for a category address it gives the name of the
    table at column 0 and nothing at the other columns. *)
Theorem data_of_category (m : SqlCompletionModel) (i : Qt.QModelIndex) (role : Z) :
  (Qt.isValid i = false \/ role <> DisplayRole ->
     data V table_data m i role = Ok None)
  /\ (forall c, is_category m i = true -> category_of m i = Some c ->
        data V table_data m i DisplayRole
        = Ok (if Qt.column i =? 0 then Some (inl (Category.tablename c)) else None)).
Proof.
  split.
  - intros [H|H]; unfold data; [by rewrite H|].
    destruct (Z.eqb_spec role DisplayRole); [done|]. by rewrite orb_true_r.
  - intros c Hi Hc. destruct (is_category_lookup m i Hi) as (c' & Hc' & Hget).
    assert (c' = c) as -> by congruence.
    unfold is_category in Hi. split_andb.
    unfold data. rewrite QModelIndex_parent_valid by done.
    repeat match goal with H : Qt.isValid _ = true |- _ => rewrite H end.
    simpl. unfold parent. destruct (Qt.internalPointer i); [done|]. simpl.
    destruct (Qt.column i =? 0); [|done]. by rewrite Hget.
Qed.

(** X11. In a model built by the methods of the class, [data] of the
    address [index] returns for a position under a category is the cell
    of that category's table at this row and column. *)
Theorem data_of_index (m : SqlCompletionModel) (row col : Z)
    (p i : Qt.QModelIndex) (c : Category.t) :
  reachable m ->
  is_category m p = true -> category_of m p = Some c ->
  index m row col p = Ok i -> Qt.isValid i = true ->
  data V table_data m i DisplayRole = Ok (inr <$> table_data c row col).
Proof.
  intros Hm%reachable_distinct Hp Hc Hi Hv.
  destruct (index_valid_inv m row col p i Hi Hv)
    as (Hrow & Hcol & [(Hroot & _)|(_ & _ & c' & Hc' & _ & ->)]).
  { unfold is_root in Hroot. unfold is_category in Hp. split_andb.
    by destruct (Qt.isValid p). }
  assert (c' = c) as -> by congruence.
  unfold data. rewrite Hv. rewrite !QModelIndex_parent_valid by done.
  unfold category_of in Hc.
  rewrite (parent_of_item m row col (Z.to_nat (Qt.row p)) c) by done.
  simpl.
  assert (Qt.isValid (Qt.createIndex (Z.of_nat (Z.to_nat (Qt.row p))) 0 None) = true)
    as ->.
  { unfold Qt.isValid. simpl.
    by destruct (Z.leb_spec 0 (Z.of_nat (Z.to_nat (Qt.row p)))); [|lia]. }
  simpl. rewrite (py_getitem_lookup _ (Z.of_nat (Z.to_nat (Qt.row p))) c);
    [done|lia|]. by rewrite Nat2Z.id.
Qed.

End ViewFacts.

Lemma data_of_category_witness :
  data nat (fun _ _ _ => None) demo_model (Qt.createIndex 1 0 None) 2 = Ok None
  /\ data nat (fun _ _ _ => None) demo_model (Qt.createIndex 1 0 None) DisplayRole
     = Ok (Some (inl "History")).
Proof.
  split.
  - apply (proj1 (data_of_category (fun _ _ _ => None) demo_model
                    (Qt.createIndex 1 0 None) 2)).
    right. discriminate.
  - exact (proj2 (data_of_category (fun _ _ _ => None) demo_model
                    (Qt.createIndex 1 0 None) DisplayRole)
             demo_history eq_refl eq_refl).
Defined.

Lemma data_of_index_witness :
  data Z (fun _ row col => Some (10 * row + col)) demo_model
    (Qt.createIndex 2 1 (Some 2%nat)) DisplayRole
  = Ok (Some (inr 21)).
Proof.
  apply (data_of_index (fun _ row col => Some (10 * row + col)) demo_model 2 1
           (Qt.createIndex 1 0 None) (Qt.createIndex 2 1 (Some 2%nat)) demo_history);
    [apply demo_model_reachable | reflexivity..].
Defined.



(** ** [count], [first_item] and [last_item] *)

Lemma count_total (m : SqlCompletionModel) :
  count m = total (map Category.rowCount (_categories m)).
Proof.
  unfold count, total. apply fold_symmetric; intros; lia.
Qed.

Lemma total_nonneg (cats : list Category.t) :
  0 <= total (map Category.rowCount cats).
Proof.
  induction cats as [|c cats IH]; simpl; [done|]. unfold Category.rowCount at 1. lia.
Qed.

Lemma total_zero (cats : list Category.t) :
  total (map Category.rowCount cats) = 0 <-> Forall no_rows cats.
Proof.
  induction cats as [|c cats IH]; simpl; [by split|].
  pose proof (total_nonneg cats). unfold Category.rowCount at 1.
  rewrite Forall_cons. unfold no_rows at 1. rewrite <- IH. lia.
Qed.

Lemma rowCount_category_address (m : SqlCompletionModel) (k : nat) (c : Category.t) :
  _categories m !! k = Some c ->
  rowCount m (category_address k) = Ok (Category.rowCount c).
Proof.
  intros Hk. pose proof (lookup_lt_Some _ _ _ Hk).
  rewrite (rowCount_category m (category_address k) c); [done| |].
  - unfold is_category, category_address, Qt.isValid. simpl.
    destruct (Z.leb_spec 0 (Z.of_nat k)); [|lia].
    by destruct (Z.ltb_spec (Z.of_nat k) (Z.of_nat (length (_categories m)))); [|lia].
  - unfold category_of. simpl. by rewrite Nat2Z.id.
Qed.

(** X13. [count] is the sum of [rowCount] over the category addresses,
    none of which raises; it is not negative. *)
Theorem count_sums_rowCount (m : SqlCompletionModel) :
  exists ns,
    category_rowCounts m = map Ok ns
    /\ count m = total ns
    /\ 0 <= count m.
Proof.
  exists (map Category.rowCount (_categories m)).
  rewrite count_total. split; [|split; [done | apply total_nonneg]].
  unfold category_rowCounts. apply list_eq. intros k.
  rewrite !list_lookup_fmap.
  destruct (_categories m !! k) as [c|] eqn:Hk; simpl.
  - rewrite lookup_seq_lt by by apply lookup_lt_Some in Hk. simpl.
    by rewrite (rowCount_category_address m k c).
  - by rewrite lookup_seq_ge by by apply lookup_ge_None in Hk.
Qed.

Lemma split_first_with_rows (cats : list Category.t) :
  Forall no_rows cats
  \/ exists before c after,
       cats = before ++ c :: after /\ Forall no_rows before
       /\ (0 < Category.rows c)%nat.
Proof.
  induction cats as [|c cats [IH|(before & c' & after & -> & Hb & Hc')]].
  - by left.
  - destruct (Category.rows c) as [|n] eqn:Hc.
    + left. by constructor.
    + right. exists [], c, cats. split; [done|]. split; [done|lia].
  - destruct (Category.rows c) as [|n] eqn:Hc.
    + right. exists (c :: before), c', after. split; [done|]. split; [|done].
      by constructor.
    + right. exists [], c, (before ++ c' :: after). split; [done|]. split; [done|lia].
Qed.

Lemma split_last_with_rows (cats : list Category.t) :
  Forall no_rows cats
  \/ exists before c after,
       cats = before ++ c :: after /\ Forall no_rows after
       /\ (0 < Category.rows c)%nat.
Proof.
  induction cats as [|c cats [IH|(before & c' & after & -> & Hb & Hc')]].
  - by left.
  - destruct (Category.rows c) as [|n] eqn:Hc.
    + left. by constructor.
    + right. exists [], c, cats. split; [done|]. split; [done|lia].
  - right. exists (c :: before), c', after. done.
Qed.

Lemma items_none (m : SqlCompletionModel) :
  Forall no_rows (_categories m) ->
  first_item m = Ok Qt.invalid /\ last_item m = Ok Qt.invalid.
Proof.
  intros H. unfold first_item, last_item, enumerate. split.
  - rewrite <- (List.app_nil_r (enumerate_from 0 _)).
    rewrite first_item_loop_skip; [done|]. by apply enumerate_from_no_rows.
  - rewrite <- (List.app_nil_r (rev _)).
    rewrite last_item_loop_skip; [done|].
    apply Forall_rev. by apply enumerate_from_no_rows.
Qed.

Lemma first_item_at (m : SqlCompletionModel) (before after : list Category.t)
    (c : Category.t) :
  _categories m = before ++ c :: after -> Forall no_rows before ->
  (0 < Category.rows c)%nat ->
  first_item m = Ok (Qt.createIndex 0 0 (Some (Category.oid_of c))).
Proof.
  intros Hcats Hbefore Hc.
  assert (_categories m !! length before = Some c) as Hk.
  { rewrite Hcats. by apply list_lookup_middle. }
  unfold first_item, enumerate. rewrite Hcats, enumerate_from_app.
  rewrite first_item_loop_skip by by apply enumerate_from_no_rows.
  simpl. by apply (first_item_loop_found m _ c).
Qed.

Lemma last_item_at (m : SqlCompletionModel) (before after : list Category.t)
    (c : Category.t) :
  _categories m = before ++ c :: after -> Forall no_rows after ->
  (0 < Category.rows c)%nat ->
  last_item m
  = Ok (Qt.createIndex (Z.of_nat (Category.rows c) - 1) 0 (Some (Category.oid_of c))).
Proof.
  intros Hcats Hafter Hc.
  assert (_categories m !! length before = Some c) as Hk.
  { rewrite Hcats. by apply list_lookup_middle. }
  unfold last_item, enumerate. rewrite Hcats, enumerate_from_app.
  simpl. rewrite rev_app_distr. simpl. rewrite <- List.app_assoc.
  rewrite last_item_loop_skip
    by (apply Forall_rev; by apply enumerate_from_no_rows).
  simpl. by apply (last_item_loop_found m _ c).
Qed.

Lemma count_positive (m : SqlCompletionModel) (before after : list Category.t)
    (c : Category.t) :
  _categories m = before ++ c :: after -> (0 < Category.rows c)%nat ->
  0 < count m.
Proof.
  intros Hcats Hc. pose proof (total_nonneg (_categories m)) as Hge.
  rewrite count_total.
  destruct (Z.eq_dec (total (map Category.rowCount (_categories m))) 0) as [H0|];
    [|lia].
  apply total_zero in H0. rewrite Hcats in H0.
  apply Forall_app in H0 as [_ [H0 _]%Forall_cons]. unfold no_rows in H0. lia.
Qed.

(** X14. [first_item] and [last_item] never raise. When the model has no
    item ([count() == 0]) both return the invalid index; otherwise both
    return the address of an item, at column 0, whose internal pointer is
    one of the model's categories. *)
Theorem first_last_item_total (m : SqlCompletionModel) :
  (count m = 0
   /\ first_item m = Ok Qt.invalid /\ last_item m = Ok Qt.invalid)
  \/ (0 < count m
      /\ exists i j oi oj,
           first_item m = Ok i /\ last_item m = Ok j
           /\ is_item i = true /\ is_item j = true
           /\ Qt.row i = 0 /\ Qt.column i = 0 /\ Qt.column j = 0
           /\ Qt.internalPointer i = Some oi /\ oi ∈ oids m
           /\ Qt.internalPointer j = Some oj /\ oj ∈ oids m).
Proof.
  destruct (split_first_with_rows (_categories m))
    as [Hnone|(before & c & after & Hcats & Hbefore & Hc)].
  - left. split; [|by apply items_none].
    rewrite count_total. by apply total_zero.
  - right. split; [by apply (count_positive m before after c)|].
    destruct (split_last_with_rows (_categories m))
      as [Hnone|(before' & c' & after' & Hcats' & Hafter' & Hc')].
    { rewrite Hcats in Hnone.
      apply Forall_app in Hnone as [_ [H0 _]%Forall_cons]. unfold no_rows in H0. lia. }
    eexists _, _, (Category.oid_of c), (Category.oid_of c').
    split; [by apply (first_item_at m before after c)|].
    split; [by apply (last_item_at m before' after' c')|].
    unfold is_item, Qt.isValid, oids. simpl.
    destruct (Z.leb_spec 0 (Z.of_nat (Category.rows c') - 1)); [|lia].
    repeat split; try done.
    + rewrite Hcats, map_app. apply elem_of_app. right. simpl. apply elem_of_cons. by left.
    + rewrite Hcats', map_app. apply elem_of_app. right. simpl. apply elem_of_cons. by left.
Qed.

(** ** [fetchMore] and [canFetchMore] *)

Lemma cat_from_idx_outside (m : SqlCompletionModel) (p : Qt.QModelIndex) :
  is_root p = true \/ is_item p = true -> _cat_from_idx m p = Ok None.
Proof.
  unfold _cat_from_idx, is_root, is_item.
  intros [H|H]; [apply negb_true_iff in H; by rewrite H|].
  apply andb_prop in H as [-> ->]. done.
Qed.

Lemma cat_from_idx_category (m : SqlCompletionModel) (p : Qt.QModelIndex)
    (c : Category.t) :
  is_category m p = true -> category_of m p = Some c ->
  _cat_from_idx m p = Ok (Some c).
Proof.
  intros Hp Hc. destruct (is_category_lookup m p Hp) as (c' & Hc' & Hget).
  assert (c' = c) as -> by congruence.
  unfold is_category in Hp. destruct_andb.
  unfold _cat_from_idx.
  repeat match goal with H : _ = true |- _ => rewrite H end.
  simpl. by rewrite Hget.
Qed.

(** X15. Under the root and under an item there is nothing to fetch:
    [canFetchMore] is false and [fetchMore] leaves the model as it is. *)
Theorem fetch_outside_categories (can : Category.t -> bool) (n : nat)
    (m : SqlCompletionModel) (p : Qt.QModelIndex) :
  is_root p = true \/ is_item p = true ->
  canFetchMore can m p = Ok false /\ fetchMore n p m = Ok m.
Proof.
  intros Hp. unfold canFetchMore, fetchMore.
  by rewrite (cat_from_idx_outside m p Hp).
Qed.

Lemma fetch_outside_categories_witness :
  canFetchMore (fun _ => true) demo_model (Qt.createIndex 0 0 (Some 2%nat)) = Ok false
  /\ fetchMore 10 (Qt.createIndex 0 0 (Some 2%nat)) demo_model = Ok demo_model.
Proof.
  apply (fetch_outside_categories (fun _ => true) 10 demo_model
           (Qt.createIndex 0 0 (Some 2%nat))).
  right. reflexivity.
Defined.

Lemma total_alter (f : Category.t -> Category.t) (cats : list Category.t)
    (k : nat) (c : Category.t) :
  cats !! k = Some c ->
  total (map Category.rowCount (alter f k cats))
  = total (map Category.rowCount cats)
    - Category.rowCount c + Category.rowCount (f c).
Proof.
  unfold total. revert k.
  induction cats as [|c0 cats IH]; intros [|k] Hk; simpl in *; try done.
  - injection Hk as ->. lia.
  - specialize (IH k Hk). unfold alter in IH. lia.
Qed.

(** X16. Under a category address, whatever its column, [canFetchMore] is
    the answer of the category's table and [fetchMore] lets that table
    fetch: the rows of this category grow by what was fetched, and so
    does [count]; the other categories keep their rows. *)
Theorem fetch_under_category (can : Category.t -> bool) (n : nat)
    (m : SqlCompletionModel) (p : Qt.QModelIndex) (c : Category.t) :
  is_category m p = true -> category_of m p = Some c ->
  canFetchMore can m p = Ok (can c)
  /\ exists m',
       fetchMore n p m = Ok m'
       /\ category_of m' p = Some (Category.fetchMore n c)
       /\ rowCount m' (category_address (Z.to_nat (Qt.row p)))
          = Ok (Category.rowCount c + Z.of_nat n)
       /\ (forall k, k <> Z.to_nat (Qt.row p) ->
             _categories m' !! k = _categories m !! k)
       /\ count m' = count m + Z.of_nat n.
Proof.
  intros Hp Hc. unfold canFetchMore, fetchMore.
  rewrite (cat_from_idx_category m p c Hp Hc). simpl. split; [done|].
  eexists. split; [done|]. unfold category_of in *. simpl.
  assert (alter (Category.fetchMore n) (Z.to_nat (Qt.row p)) (_categories m)
            !! Z.to_nat (Qt.row p) = Some (Category.fetchMore n c)) as Hk.
  { by rewrite list_lookup_alter_eq, Hc. }
  split; [done|]. split; [|split].
  - rewrite (rowCount_category_address _ _ (Category.fetchMore n c)) by done.
    unfold Category.rowCount, Category.fetchMore. simpl. f_equal. lia.
  - intros k Hne. by rewrite list_lookup_alter_ne.
  - rewrite !count_total. simpl. rewrite (total_alter _ _ _ c) by done.
    unfold Category.rowCount, Category.fetchMore. simpl. lia.
Qed.

Lemma fetch_under_category_witness :
  canFetchMore (fun c => Nat.ltb (Category.rows c) 5) demo_model
    (Qt.createIndex 1 2 None) = Ok true
  /\ exists m',
       fetchMore 4 (Qt.createIndex 1 2 None) demo_model = Ok m'
       /\ count m' = 7.
Proof.
  destruct (fetch_under_category (fun c => Nat.ltb (Category.rows c) 5) 4 demo_model
              (Qt.createIndex 1 2 None) demo_history eq_refl eq_refl)
    as (Hcan & m' & Hm' & _ & _ & _ & Hcount).
  split; [exact Hcan|]. exists m'. split; [exact Hm' | exact Hcount].
Defined.

(** X17. The row of a category address is not checked against the number
    of categories: on a valid index without internal pointer whose row is
    past the last category, [rowCount], [canFetchMore], [fetchMore],
    [index] (for a row that is not negative) and [data] (at column 0, for
    the display role) raise [IndexError]. *)
Theorem past_categories_raises (V : Type) (table_data : Category.t -> Z -> Z -> option V)
    (can : Category.t -> bool) (n : nat)
    (m : SqlCompletionModel) (p : Qt.QModelIndex) (row col : Z) :
  past_categories m p = true ->
  rowCount m p = Raise IndexError
  /\ canFetchMore can m p = Raise IndexError
  /\ fetchMore n p m = Raise IndexError
  /\ (0 <= row -> index m row col p = Raise IndexError)
  /\ (Qt.column p = 0 -> data V table_data m p DisplayRole = Raise IndexError).
Proof.
  unfold past_categories. intros H. destruct_andb.
  assert (py_getitem (_categories m) (Qt.row p) = Raise IndexError) as Hget.
  { unfold py_getitem. pose proof (isValid_row p ltac:(done)).
    destruct (Z.ltb_spec (Qt.row p) 0); [lia|].
    destruct (Z.ltb_spec (Qt.row p) 0); [lia|].
    match goal with H : (_ <=? _) = true |- _ => rewrite H end. done. }
  assert (_cat_from_idx m p = Raise IndexError) as Hcat.
  { unfold _cat_from_idx.
    repeat match goal with H : _ = true |- _ => rewrite H end.
    simpl. by rewrite Hget. }
  assert (rowCount m p = Raise IndexError) as Hrows.
  { unfold rowCount. rewrite Hcat.
    by match goal with H : Qt.isValid _ = true |- _ => rewrite H end. }
  split; [done|]. split; [|split; [|split]].
  - unfold canFetchMore. by rewrite Hcat.
  - unfold fetchMore. by rewrite Hcat.
  - intros Hrow. unfold index. rewrite Hrows.
    by destruct (Z.ltb_spec row 0); [lia|].
  - intros Hcol. unfold data. rewrite QModelIndex_parent_valid by done.
    match goal with H : Qt.isValid _ = true |- _ => rewrite H end.
    unfold parent. destruct (Qt.internalPointer p); [done|]. simpl.
    by rewrite Hcol, Hget.
Qed.

Lemma past_categories_raises_witness :
  rowCount demo_model (Qt.createIndex 2 0 None) = Raise IndexError
  /\ index demo_model 0 0 (Qt.createIndex 2 0 None) = Raise IndexError.
Proof.
  destruct (past_categories_raises nat (fun _ _ _ => None) (fun _ => false) 0
              demo_model (Qt.createIndex 2 0 None) 0 0 eq_refl)
    as (Hrows & _ & _ & Hindex & _).
  split; [exact Hrows | apply Hindex; lia].
Defined.

(** ** [new_category] *)

Lemma build_querystr_Raise (name select : string) (fields : list string)
    (where_ sort_by : option string) (sort_order : option Qt.SortOrder)
    (limit : option Z) (e : exn) :
  Category.build_querystr name select fields where_ sort_by sort_order limit
  = Raise e ->
  e = AssertionError /\ truthy_str sort_by = true /\ sort_order = None.
Proof.
  unfold Category.build_querystr.
  destruct (truthy_str sort_by); [|done].
  destruct sort_order; [done|]. simpl. by intros [= <-].
Qed.

Lemma build_querystr_assert (name select : string) (fields : list string)
    (where_ sort_by : option string) (limit : option Z) :
  truthy_str sort_by = true ->
  Category.build_querystr name select fields where_ sort_by None limit
  = Raise AssertionError.
Proof. unfold Category.build_querystr. by intros ->. Qed.

(** X18. [new_category] first probes the table with
    [select * from <name> limit 1]. When it returns, the model has one
    more category, at the end: a new object for that table, showing the
    rows of its query for the pattern ['%'], the only other query made.
    When it raises, the exception is [SqlException] or [AssertionError]
    and the model is as before. *)
Theorem new_category_outcome (o : oid) (db : Sql.engine) (name select : string)
    (where_ sort_by : option string) (sort_order : option Qt.SortOrder)
    (limit : option Z) (m : SqlCompletionModel) :
  let out := new_category o db name select where_ sort_by sort_order limit m in
  head out.2 = Some (probe_call name)
  /\ (forall e, out.1.1 = Raise e ->
        out.1.2 = m /\ (e = SqlException \/ e = AssertionError))
  /\ (out.1.1 = Ok tt ->
      exists cat query,
        out.1.2 = with_categories (_categories m ++ [cat]) m
        /\ Category.oid_of cat = o
        /\ Category.tablename cat = name
        /\ db (Category._querystr cat) (bound_values "%" cat) = Some query
        /\ Category.rows cat = Sql.loaded query
        /\ out.2 = [probe_call name; pattern_call "%" cat]
        /\ rowCount out.1.2 Qt.invalid
           = Ok (Z.of_nat (length (_categories m)) + 1)).
Proof.
  intros out. subst out. unfold new_category, Category.__init__, probe_call.
  destruct (Sql.run_query db _ []) as [q|e0] eqn:Hq.
  2:{ unfold Sql.run_query in Hq. destruct (db _ []); [done|]. injection Hq as <-.
      cbn [fst snd head]. split; [done|]. split; [|done].
      intros e [= <-]. split; [done | by left]. }
  destruct (Category.build_querystr _ _ _ _ _ _ _) as [querystr|e0] eqn:Hb.
  2:{ apply build_querystr_Raise in Hb as (-> & _ & _).
      cbn [fst snd head]. split; [done|]. split; [|done].
      intros e [= <-]. split; [done | by right]. }
  unfold Category.set_pattern. rewrite map_const_replicate.
  match goal with |- context [Sql.run_query db ?s ?v] =>
    destruct (Sql.run_query db s v) as [query|e0] eqn:Hrun;
    unfold Sql.run_query in Hrun; destruct (db s v) as [query'|] eqn:Hdb;
    try discriminate
  end.
  - injection Hrun as ->. cbn [fst snd head]. split; [done|]. split; [done|].
    intros _. eexists _, query. split; [done|]. cbn.
    split; [done|]. split; [done|]. split; [exact Hdb|]. split; [done|].
    split; [done|]. rewrite length_app. simpl. f_equal. lia.
  - injection Hrun as <-. cbn [fst snd head]. split; [done|]. split; [|done].
    intros e [= <-]. split; [done | by left].
Qed.

Lemma new_category_outcome_witness :
  exists cat,
    _categories
      (new_category 3%nat demo_db "Quickmarks" "*" None None None None demo_model).1.2
    = [demo_empty; demo_history; cat]
    /\ Category.rows cat = 3%nat.
Proof.
  destruct (new_category_outcome 3%nat demo_db "Quickmarks" "*" None None None None
              demo_model) as (_ & _ & H).
  destruct (H eq_refl) as (cat & query & Hm & _).
  exists cat. split; [by rewrite Hm|].
  vm_compute in Hm. by injection Hm as <-.
Defined.

(** X19. The errors of [new_category]. When the probe fails, it raises
    [SqlException] after that one query. When the probe succeeds and
    [sort_by] is given without [sort_order], it raises [AssertionError]
    before any filtered query. In both cases no category is added. *)
Theorem new_category_errors (o : oid) (db : Sql.engine) (name select : string)
    (where_ sort_by : option string) (sort_order : option Qt.SortOrder)
    (limit : option Z) (m : SqlCompletionModel) :
  (db (probe_call name).1 [] = None ->
     new_category o db name select where_ sort_by sort_order limit m
     = (Raise SqlException, m, [probe_call name]))
  /\ (is_Some (db (probe_call name).1 []) -> truthy_str sort_by = true ->
      new_category o db name select where_ sort_by None limit m
      = (Raise AssertionError, m, [probe_call name])).
Proof.
  unfold new_category, Category.__init__, probe_call, Sql.run_query. cbn [fst].
  split.
  - by intros ->.
  - intros [q ->] Hsort. by rewrite build_querystr_assert.
Qed.

Lemma new_category_errors_witness :
  new_category 3%nat demo_db "Quickmarks" "*" None (Some "name") None None demo_model
  = (Raise AssertionError, demo_model, [probe_call "Quickmarks"])
  /\ new_category 3%nat (fun _ _ => None) "Quickmarks" "*" None None None None
       demo_model
     = (Raise SqlException, demo_model, [probe_call "Quickmarks"]).
Proof.
  split.
  - apply (proj2 (new_category_errors 3%nat demo_db "Quickmarks" "*" None
                    (Some "name") None None demo_model)); [by eexists | reflexivity].
  - apply (proj1 (new_category_errors 3%nat (fun _ _ => None) "Quickmarks" "*" None
                    None None None demo_model)). reflexivity.
Defined.

(** ** What no method undoes *)

Lemma Forall2_same_object_refl (cats : list Category.t) :
  Forall2 same_object cats cats.
Proof. induction cats; constructor; [apply same_object_refl | done]. Qed.

Lemma same_object_trans (c1 c2 c3 : Category.t) :
  same_object c1 c2 -> same_object c2 c3 -> same_object c1 c3.
Proof.
  intros (H1 & H2 & H3 & H4) (H1' & H2' & H3' & H4').
  repeat split; congruence.
Qed.

Lemma extends_refl (m : SqlCompletionModel) : extends m m.
Proof.
  exists (_categories m), []. split; [by rewrite List.app_nil_r|].
  apply Forall2_same_object_refl.
Qed.

Lemma extends_trans (m1 m2 m3 : SqlCompletionModel) :
  extends m1 m2 -> extends m2 m3 -> extends m1 m3.
Proof.
  intros (cats2 & more2 & H2 & Hsame2) (cats3 & more3 & H3 & Hsame3).
  rewrite H2 in Hsame3.
  apply Forall2_app_inv_l in Hsame3 as (k1 & k2 & Hk1 & Hk2 & ->).
  exists k1, (k2 ++ more3). split; [by rewrite H3, <- List.app_assoc|].
  eapply Forall2_trans; [|done..]. apply same_object_trans.
Qed.

Lemma step_extends (m m' : SqlCompletionModel) :
  step m m' ->
  extends m m'
  /\ columns_to_filter m' = columns_to_filter m
  /\ column_widths m' = column_widths m.
Proof.
  intros [o db name select where_ sort_by sort_order limit self Ho
         | db raw self | n p self self' Hf].
  - destruct (new_category_model o db name select where_ sort_by sort_order limit self)
      as [->|(cat & q & -> & _)]; [split; [apply extends_refl | done]|].
    split; [|done]. exists (_categories self), [cat]. split; [done|].
    apply Forall2_same_object_refl.
  - destruct (set_pattern_model db raw self) as (cats' & -> & Hsame).
    split; [|done]. exists cats', []. split; [by rewrite List.app_nil_r | done].
  - destruct (fetchMore_model _ _ _ _ Hf) as (cats' & -> & Hsame).
    split; [|done]. exists cats', []. split; [by rewrite List.app_nil_r | done].
Qed.

(** X20. No call of [new_category], [set_pattern] or [fetchMore] removes
    or moves a category, or changes [columns_to_filter] or
    [column_widths]: after any number of calls an address of the model is
    still one, and a category address stands for the same object, with
    its table, its fields and its statement. *)
Theorem addresses_stay (m m' : SqlCompletionModel) (p : Qt.QModelIndex) :
  rtc step m m' ->
  columns_to_filter m' = columns_to_filter m
  /\ column_widths m' = column_widths m
  /\ (is_address m p = true -> is_address m' p = true)
  /\ (forall c, is_category m p = true -> category_of m p = Some c ->
        is_category m' p = true
        /\ exists c', category_of m' p = Some c' /\ same_object c c').
Proof.
  intros Hsteps.
  assert (extends m m' /\ columns_to_filter m' = columns_to_filter m
          /\ column_widths m' = column_widths m) as (Hext & Hf & Hw).
  { induction Hsteps as [m|m1 m2 m3 Hstep _ (IH1 & IH2 & IH3)].
    - split; [apply extends_refl | done].
    - destruct (step_extends m1 m2 Hstep) as (H1 & H2 & H3).
      split; [by apply (extends_trans m1 m2 m3) | split; congruence]. }
  split; [done|]. split; [done|].
  destruct Hext as (cats' & more & Hcats & Hsame).
  pose proof (Forall2_length _ _ _ Hsame) as Hlen.
  assert (is_category m p = true -> is_category m' p = true) as Hcat.
  { unfold is_category. intros H. destruct_andb.
    repeat match goal with H : _ = true |- _ => rewrite H end.
    rewrite Hcats, length_app. apply Z.ltb_lt.
    match goal with H : (_ <? _) = true |- _ => apply Z.ltb_lt in H end. lia. }
  split.
  - unfold is_address.
    intros [[H|H]%orb_prop|H]%orb_prop.
    + by rewrite H.
    + by rewrite (Hcat H), orb_true_r.
    + by rewrite H, orb_true_r.
  - intros c Hp Hc. split; [by apply Hcat|]. unfold category_of in *.
    destruct (Forall2_lookup_l _ _ _ _ _ Hsame Hc) as (c' & Hc' & Hcc').
    exists c'. split; [|done]. rewrite Hcats. by apply lookup_app_l_Some.
Qed.

Lemma addresses_stay_witness :
  is_address demo_model (Qt.createIndex 0 0 None) = true.
Proof.
  apply (addresses_stay
           (new_category 1%nat demo_db "Empty" "*" None None None None
              (__init__ default_column_widths None)).1.2
           demo_model (Qt.createIndex 0 0 None)).
  - rewrite demo_model_built. eapply rtc_l; [|apply rtc_refl].
    apply step_new_category. simpl. intros H%list_elem_of_singleton. discriminate.
  - reflexivity.
Defined.

(** ** [set_pattern] again *)

Lemma category_set_pattern_twice (db : Sql.engine) (p : string) (c : Category.t) :
  Category.set_pattern db p (Category.set_pattern db p c).1.2
  = Category.set_pattern db p c.
Proof.
  unfold Category.set_pattern.
  destruct (Sql.run_query db (Category._querystr c) _) as [q|e] eqn:Hq; simpl.
  - by rewrite Hq.
  - by rewrite Hq.
Qed.

Lemma set_pattern_loop_twice (db : Sql.engine) (p : string) (cats : list Category.t) :
  set_pattern_loop db p (set_pattern_loop db p cats).1.2
  = set_pattern_loop db p cats.
Proof.
  induction cats as [|c cats IH]; [done|]. simpl.
  pose proof (category_set_pattern_twice db p c) as Hc.
  destruct (Category.set_pattern db p c) as [[[[]|e] c'] calls] eqn:Hfirst;
    simpl in *.
  - destruct (set_pattern_loop db p cats) as [[r rest'] calls'] eqn:Hrest.
    simpl in *. by rewrite Hc, IH.
  - by rewrite Hc.
Qed.

(** X21. Setting the same pattern again changes nothing, as long as the
    database answers as before: the same result, the same queries, the
    same model. *)
Theorem set_pattern_idempotent (db : Sql.engine) (raw : string)
    (m : SqlCompletionModel) :
  set_pattern db raw (set_pattern db raw m).1.2
  = set_pattern db raw m.
Proof.
  unfold set_pattern. simpl.
  pose proof (set_pattern_loop_twice db (compile_pattern raw) (_categories m)) as H.
  destruct (set_pattern_loop db (compile_pattern raw) (_categories m))
    as [[r cats'] calls]. simpl in *. by rewrite H.
Qed.

Lemma set_pattern_loop_app (db : Sql.engine) (p : string)
    (before rest : list Category.t) :
  (forall c, c ∈ before -> is_Some (db (Category._querystr c) (bound_values p c))) ->
  exists before',
    Forall2 (applied db p) before before'
    /\ set_pattern_loop db p (before ++ rest)
       = ((set_pattern_loop db p rest).1.1,
          before' ++ (set_pattern_loop db p rest).1.2,
          broadcast p before ++ (set_pattern_loop db p rest).2).
Proof.
  induction before as [|c before IH]; intros Hdb.
  - exists []. split; [constructor|]. simpl.
    by destruct (set_pattern_loop db p rest) as [[r rest'] calls].
  - destruct IH as (before' & Hsame & IH); [intros c0 Hc0; apply Hdb; by right|].
    pose proof (category_set_pattern_call db p c) as Hcall.
    destruct (category_set_pattern_applied db p c) as [Hr Hc'];
      [apply Hdb; by left|].
    simpl. destruct (Category.set_pattern db p c) as [[r c'] calls].
    simpl in *. subst. rewrite IH.
    exists (c' :: before'). split; [by constructor|]. done.
Qed.

(** X22. [set_pattern] stops at the first category whose query fails: it
    raises [SqlException], the categories before it show the rows of the
    new pattern, that category and those after it are as they were, and
    no query is made for the categories after it. The [pattern]
    attribute holds the new text all the same. *)
Theorem set_pattern_fails_fast (db : Sql.engine) (raw : string)
    (m : SqlCompletionModel) (before after : list Category.t) (c : Category.t) :
  let compiled := compile_pattern raw in
  _categories m = before ++ c :: after ->
  (forall b, b ∈ before ->
     is_Some (db (Category._querystr b) (bound_values compiled b))) ->
  db (Category._querystr c) (bound_values compiled c) = None ->
  exists before',
    set_pattern db raw m
    = (Raise SqlException,
       with_categories (before' ++ c :: after) (with_pattern raw m),
       broadcast compiled (before ++ [c]))
    /\ Forall2 (applied db compiled) before before'.
Proof.
  intros compiled Hcats Hbefore Hc.
  destruct (set_pattern_loop_app db compiled before (c :: after) Hbefore)
    as (before' & Hsame & Hloop).
  exists before'. split; [|done].
  unfold set_pattern. simpl. fold compiled. rewrite Hcats, Hloop.
  simpl. unfold Category.set_pattern, Sql.run_query.
  rewrite map_const_replicate. fold (bound_values compiled c). rewrite Hc. simpl.
  unfold broadcast. by rewrite map_app.
Qed.

Lemma set_pattern_fails_fast_witness :
  let db : Sql.engine := fun querystr values =>
    if String.prefix "select url" querystr then None else demo_db querystr values in
  (set_pattern db "x" demo_model).1.1 = Raise SqlException
  /\ length (set_pattern db "x" demo_model).2 = 2%nat.
Proof.
  intros db.
  destruct (set_pattern_fails_fast db "x" demo_model [demo_empty] [] demo_history
              eq_refl) as (before' & -> & _).
  - intros b ->%list_elem_of_singleton. by eexists.
  - reflexivity.
  - split; reflexivity.
Defined.

(** ** The statement of a category *)

Lemma count_char_app (c : ascii) (s1 s2 : string) :
  count_char c (s1 +:+ s2) = (count_char c s1 + count_char c s2)%nat.
Proof. induction s1 as [|b s1 IH]; simpl; [done|]. rewrite IH. lia. Qed.

Lemma count_char_pretty_N_go (x : N) (s : string) :
  count_char "?" (pretty_N_go x s) = count_char "?" s.
Proof.
  revert s. induction (N.lt_wf_0 x) as [x _ IH]; intros s.
  destruct (decide (x = 0)%N) as [->|Hx]; [by rewrite pretty_N_go_0|].
  rewrite pretty_N_go_step by lia. rewrite IH by (apply N.div_lt; lia).
  simpl. unfold pretty_N_char. by repeat case_match.
Qed.

Lemma count_char_pretty_Z (z : Z) : count_char "?" (pretty z) = 0%nat.
Proof.
  destruct z as [|p|p]; [done|..]; unfold pretty, pretty_Z, pretty, pretty_positive,
    pretty, pretty_N; simpl; rewrite ?count_char_pretty_N_go; done.
Qed.

Lemma count_char_join_clauses (fields : list string) :
  Forall no_placeholder fields ->
  count_char "?"
    (PyStr.join " or "
       (map (fun f => f +:+ " like ? escape '" +:+ String backslash "'") fields))
  = length fields.
Proof.
  induction 1 as [|f fields Hf Hfields IH]; [done|].
  unfold no_placeholder in Hf.
  destruct fields as [|f' fields].
  - simpl. rewrite count_char_app, Hf. done.
  - change (PyStr.join ?sep (map ?g (f :: f' :: fields)))
      with (g f +:+ sep +:+ PyStr.join sep (map g (f' :: fields))).
    rewrite !count_char_app, IH, Hf. simpl. lia.
Qed.

(** X23. The statement [__init__] builds has one placeholder for each
    filtered field, as many as [set_pattern] binds values, when the table
    name, the select expression, the field names, the where clause and
    the sort field contain no ['?'] themselves. *)
Theorem querystr_placeholders (name select : string) (fields : list string)
    (where_ sort_by : option string) (sort_order : option Qt.SortOrder)
    (limit : option Z) (querystr : string) :
  Category.build_querystr name select fields where_ sort_by sort_order limit
  = Ok querystr ->
  no_placeholder name -> no_placeholder select ->
  Forall no_placeholder fields ->
  no_placeholder (default "" where_) -> no_placeholder (default "" sort_by) ->
  count_char "?" querystr = length fields
  /\ forall pattern : string,
       length (map (fun _ : string => pattern) fields) = count_char "?" querystr.
Proof.
  unfold no_placeholder. intros Hq Hname Hselect Hfields Hwhere Hsort.
  assert (count_char "?" querystr = length fields) as H;
    [|split; [done | intros; by rewrite length_map]].
  unfold Category.build_querystr in Hq.
  set (base := _ +:+ ")") in Hq.
  assert (count_char "?" base = length fields) as Hbase.
  { subst base. rewrite !count_char_app, count_char_join_clauses by done.
    rewrite Hname, Hselect. simpl. lia. }
  set (with_where := if truthy_str where_ then _ else _) in Hq.
  assert (count_char "?" with_where = length fields) as Hw.
  { subst with_where. destruct (truthy_str where_); [|done].
    rewrite !count_char_app, Hbase, Hwhere. simpl. lia. }
  assert (exists sorted, count_char "?" sorted = length fields
            /\ querystr = if truthy_int limit
                          then sorted +:+ " limit " +:+ pretty (default 0 limit)
                          else sorted) as (sorted & Hs & ->).
  { destruct sort_by as [[|a s]|]; cbn [default from_option id] in Hsort.
    - simpl in Hq. injection Hq as <-. by eexists.
    - destruct sort_order as [order|]; [|done].
      cbn [truthy_str mbind res_bind default from_option id] in Hq.
      injection Hq as <-. eexists. split; [|done].
      rewrite count_char_app, Hw. simpl. rewrite !count_char_app.
      simpl in Hsort. by destruct order; simpl; lia.
    - simpl in Hq. injection Hq as <-. by eexists. }
  destruct (truthy_int limit); [|done].
  rewrite !count_char_app, Hs, count_char_pretty_Z. simpl. lia.
Qed.

Lemma querystr_placeholders_witness :
  count_char "?" (Category._querystr demo_history) = 1%nat.
Proof.
  apply (querystr_placeholders "History" "url, title" ["url"] None
           (Some "last_atime") (Some Qt.DescendingOrder) (Some 100)
           (Category._querystr demo_history));
    try reflexivity. by repeat constructor.
Defined.

(** ** [new_category] and the addresses already there *)

Lemma py_getitem_app {A : Type} (l more : list A) (i : Z) :
  0 <= i < Z.of_nat (length l) ->
  py_getitem (l ++ more) i = py_getitem l i.
Proof.
  intros [Hi Hlt].
  destruct (lookup_lt_is_Some_2 l (Z.to_nat i)) as [x Hx]; [lia|].
  rewrite (py_getitem_lookup l i x Hi Hx).
  apply py_getitem_lookup; [done|]. by apply lookup_app_l_Some.
Qed.

Lemma rowCount_with_more (m : SqlCompletionModel) (more : list Category.t)
    (p : Qt.QModelIndex) :
  is_category m p = true \/ is_item p = true ->
  rowCount (with_categories (_categories m ++ more) m) p = rowCount m p
  /\ forall row col,
       index (with_categories (_categories m ++ more) m) row col p
       = index m row col p.
Proof.
  intros [Hp|Hp].
  - assert (py_getitem (_categories m ++ more) (Qt.row p)
            = py_getitem (_categories m) (Qt.row p)) as Hget.
    { unfold is_category in Hp. destruct_andb. apply py_getitem_app.
      pose proof (isValid_row p ltac:(done)).
      match goal with H : (_ <? _) = true |- _ => apply Z.ltb_lt in H end. lia. }
    assert (rowCount (with_categories (_categories m ++ more) m) p = rowCount m p)
      as Hrows.
    { unfold rowCount, _cat_from_idx. simpl. rewrite Hget.
      unfold is_category in Hp. destruct_andb.
      by repeat match goal with H : _ = true |- _ => rewrite H end. }
    split; [done|]. intros row col. unfold index. rewrite Hrows. simpl.
    by rewrite Hget.
  - split; [by rewrite !rowCount_item|]. intros row col.
    unfold index. rewrite !rowCount_item by done. simpl.
    destruct (Z.ltb_spec row 0); [done|]. by destruct (Z.leb_spec 0 row); [|lia].
Qed.

(** X24. A new category does not disturb the others: for the category
    and item addresses the model had, [rowCount] and [index] give after
    [new_category] what they gave before, whether it returned or raised;
    under the root there is one more row when it returned. *)
Theorem new_category_keeps_addresses (o : oid) (db : Sql.engine)
    (name select : string) (where_ sort_by : option string)
    (sort_order : option Qt.SortOrder) (limit : option Z)
    (m : SqlCompletionModel) (p : Qt.QModelIndex) :
  let out := new_category o db name select where_ sort_by sort_order limit m in
  is_category m p = true \/ is_item p = true ->
  rowCount out.1.2 p = rowCount m p
  /\ (forall row col, index out.1.2 row col p = index m row col p)
  /\ (out.1.1 = Ok tt ->
      rowCount out.1.2 Qt.invalid = Ok (Z.of_nat (length (_categories m)) + 1)).
Proof.
  intros out Hp. subst out.
  destruct (new_category_model o db name select where_ sort_by sort_order limit m)
    as [Hm|(cat & q & Hm & _)].
  - rewrite Hm. split; [done|]. split; [done|].
    unfold new_category in *.
    destruct (Category.__init__ _ _ _ _ _ _ _ _ _) as [[cat|e] calls]; [|done].
    simpl in *. intros _. exfalso.
    apply (f_equal (fun x => length (_categories x))) in Hm. simpl in Hm.
    rewrite length_app in Hm. simpl in Hm. lia.
  - rewrite Hm. destruct (rowCount_with_more m [cat] p Hp) as [Hrows Hindex].
    split; [done|]. split; [done|]. intros _.
    rewrite rowCount_root by done. simpl. rewrite length_app. simpl. f_equal. lia.
Qed.

Lemma new_category_keeps_addresses_witness :
  rowCount
    (new_category 3%nat demo_db "Quickmarks" "*" None None None None demo_model).1.2
    (Qt.createIndex 1 0 None)
  = Ok 3.
Proof.
  destruct (new_category_keeps_addresses 3%nat demo_db "Quickmarks" "*" None None
              None None demo_model (Qt.createIndex 1 0 None)) as (H & _).
  - left. reflexivity.
  - rewrite H. reflexivity.
Defined.

(** X25. Categories are top-level: whatever [index] returns under the
    root has the invalid index for parent. *)
Theorem parent_of_top_level (m : SqlCompletionModel) (row col : Z)
    (p i : Qt.QModelIndex) :
  is_root p = true -> index m row col p = Ok i -> parent m i = Ok Qt.invalid.
Proof.
  intros Hp Hi. unfold is_root in Hp. apply negb_true_iff in Hp.
  unfold index in Hi. rewrite Hp in Hi.
  destruct (row <? 0); [by injection Hi as <-|].
  destruct (rowCount m p) as [n|e]; [|done]. simpl in Hi.
  destruct (n <=? row); [by injection Hi as <-|].
  destruct (col <? 0); [by injection Hi as <-|].
  destruct (columnCount p <=? col); by injection Hi as <-.
Qed.

Lemma parent_of_top_level_witness :
  parent demo_model (Qt.createIndex 1 2 None) = Ok Qt.invalid.
Proof.
  apply (parent_of_top_level demo_model 1 2 Qt.invalid (Qt.createIndex 1 2 None));
    reflexivity.
Defined.
